(** * Feature-subset search notebooks: exhaustive, forward and backward
      stepwise selection around a best-solution tracker

    Shallow embedding of the search cells of
    - [Feature_Selection_by_Complete_Enumeration.ipynb],
    - [Forward_Stepwise_Feature_Selection.ipynb],
    - [Backward_Stepwise_Feature_Selection.ipynb].

    Conventions.
    - A feature is a column name, a Python [str].
    - A score is a Python / NumPy float, i.e. an IEEE-754 binary64 value.  It
      is modelled by [spec_float], the Standard Library's specification of
      such values, compared with [SFltb] (the IEEE [<], false as soon as one
      side is NaN).
    - The scoring oracle (the [cross_val_score] call followed by
      [-np.average]) is an external collaborator: a function
      [score : list Feature -> Score].  The cross-validation splitter is
      built with [random_state=0], so the oracle is a function of the
      subset alone.
    - The baseline [mean_squared_error(y, [y.mean()] * len(y))] is computed
      by the same external library from the label column alone; it enters
      the model as the value [baseline].
    - [while] loops take a fuel argument that bounds the number of
      executions of the loop body; [None] means that the fuel ran out. *)

From Stdlib Require Import ZArith Floats.SpecFloat.
From stdpp Require Import list strings sets sorting.

(* ===================================================================== *)
(** * Part I: the program *)
(* ===================================================================== *)

(** ** Data *)

Definition Feature := string.
Definition Score := spec_float.

Definition is_nan (x : Score) : bool :=
  match x with S754_nan => true | _ => false end.

(** The binary64 value of a (small) integer, for concrete examples. *)
Definition score_of_Z (z : Z) : Score := binary_normalize 53 1024 z 0 false.

(** Python truthiness of the three kinds of values the notebooks test:
    a [str] is falsy iff empty, a float iff it is a zero (NaN is truthy), a
    [list] iff empty; [None] is falsy. *)
Definition truthy_str (s : Feature) : bool := bool_decide (s ≠ "").
Definition truthy_float (x : Score) : bool :=
  match x with S754_zero _ => false | _ => true end.
Definition truthy_list {A} (l : list A) : bool :=
  match l with [] => false | _ :: _ => true end.
Definition truthy_opt {A} (t : A → bool) (o : option A) : bool :=
  match o with None => false | Some a => t a end.

(** ** class Solution *)

Record Solution := mkSolution { features : list Feature; mse : Score }.

(** [Solution.__init__(self, y)] of the enumeration and forward notebooks:
    only [self.mse] is assigned, [self.features] reads the class attribute
    [features = list()].  That shared list is never mutated in place
    ([update] rebinds the attribute), so it is the empty list throughout. *)
Definition Solution_init (baseline : Score) : Solution :=
  mkSolution [] baseline.

(** [Solution.__init__(self, y, features=None, mse=None)] of the backward
    notebook:
<<
        if features and mse:
            self.features = features
            self.mse = mse
        else:
            pred = [y.mean()] * len(y)
            self.features = list()
            self.mse = mean_squared_error(y, pred)
>> *)
Definition Solution_init_backward (baseline : Score)
    (features : option (list Feature)) (mse : option Score) : Solution :=
  match features, mse with
  | Some fs, Some m =>
      if truthy_list fs && truthy_float m then mkSolution fs m
      else mkSolution [] baseline
  | _, _ => mkSolution [] baseline
  end.

(** [Solution.update(self, features, mse)], the same in the three notebooks:
<<
        if mse < self.mse:
            self.features = features
            self.mse = mse
            return True
        return False
>>
    The mutated object is threaded explicitly: the result is the tracker
    after the call together with the returned boolean. *)
Definition update (self : Solution) : list Feature → Score → Solution * bool :=
  let self_mse := self.(mse) in
  λ features mse,
    if SFltb mse self_mse then (mkSolution features mse, true)
    else (self, false).

(** A sequence of [update] calls on one tracker: the tracker after the last
    of them.  The tracker after the first [n] calls is
    [updates self (take n cs)]. *)
Definition updates (self : Solution) (cs : list (list Feature * Score))
    : Solution :=
  fold_left (λ b c, (update b c.1 c.2).1) cs self.

(** ** Complete enumeration *)

(** [itertools.combinations(pool, r)]: the [r]-length subsequences of
    [pool], emitted in lexicographic order of their positions. *)
Fixpoint combinations {A} (pool : list A) (r : nat) : list (list A) :=
  match r with
  | 0 => [[]]
  | S r' =>
      match pool with
      | [] => []
      | x :: pool' =>
          map (cons x) (combinations pool' r') ++ combinations pool' r
      end
  end.

(** The state of a run: the tracker and, as a ghost field, the subsets the
    oracle has been invoked on, oldest first. *)
Record Enumeration := mkEnumeration {
  e_best : Solution;
  e_calls : list (list Feature)
}.

Section Exhaustive.
Variable score : list Feature → Score.

(** [for subset in subsets: ... best.update(features=subset, mse=mse)] *)
Fixpoint for_subset (subsets : list (list Feature)) (st : Enumeration)
    : Enumeration :=
  match subsets with
  | [] => st
  | subset :: rest =>
      let mse := score subset in
      for_subset rest
        (mkEnumeration (update st.(e_best) subset mse).1
                       (st.(e_calls) ++ [subset]))
  end.

(** [for n_features in range(1, len(features)+1):] *)
Fixpoint for_n_features (all_features : list Feature) (sizes : list nat)
    (st : Enumeration) : Enumeration :=
  match sizes with
  | [] => st
  | n_features :: rest =>
      for_n_features all_features rest
        (for_subset (combinations all_features n_features) st)
  end.

Definition exhaustive (all_features : list Feature) (baseline : Score)
    : Enumeration :=
  for_n_features all_features (seq 1 (length all_features))
    (mkEnumeration (Solution_init baseline) []).
End Exhaustive.

(** The enumeration order the loops are expected to follow: the sizes
    [1 .. p] in turn and, within a size, the combinations of that size. *)
Definition subsets_by_size {A} (pool : list A) : list (list A) :=
  seq 1 (length pool) ≫= combinations pool.

(** ** Stepwise searches *)

(** State of a stepwise search.  [rounds] (executions of the [while] body)
    and [picked] (the features committed by [append] / [remove], oldest
    first) are ghost fields. *)
Record Search := mkSearch {
  current_features : list Feature;
  best : Solution;
  rounds : nat;
  picked : list Feature
}.

(** What the inner [for] loop carries: the tracker and the local variable
    [selected_feature] / [removed_feature] ([None] until an update
    succeeds). *)
Definition Round : Type := Solution * option Feature.

Section Forward.
Variable score : list Feature → Score.
(** Iteration order of the Python [set] built in a round: CPython fixes
    it by the hashes of the strings, the model takes it as a parameter
    that rearranges the elements of the set. *)
Variable order : list Feature → list Feature.
Variable all_features : list Feature.

(** The elements of [set(all_features) - set(current_features)], each
    once; [order] then gives the order in which the set is iterated. *)
Definition remaining (current : list Feature) : list Feature :=
  list_difference (remove_dups all_features) current.

(** Body of [for feature in set(all_features) - set(current_features)]:
<<
      new_features = current_features + [feature]
      mse = -np.average(cross_val_score(...))
      if best.update(new_features, mse):
          selected_feature = feature
>> *)
Fixpoint forward_for (current : list Feature) (cands : list Feature)
    (r : Round) : Round :=
  match cands with
  | [] => r
  | feature :: rest =>
      let new_features := current ++ [feature] in
      let mse := score new_features in
      let '(b, improved) := update r.1 new_features mse in
      forward_for current rest
        (b, if improved then Some feature else r.2)
  end.

Definition forward_round (current : list Feature) (b : Solution) : Round :=
  forward_for current (order (remaining current)) (b, None).

(** [while current_features != all_features: ...] with
<<
      if selected_feature:
          current_features.append(selected_feature)
      else:
          break
>> *)
Fixpoint forward_while (fuel : nat) (st : Search) : option Search :=
  if decide (st.(current_features) = all_features) then Some st
  else
    match fuel with
    | 0 => None
    | S fuel' =>
        let selected := forward_round st.(current_features) st.(best) in
        let st' := mkSearch st.(current_features) selected.1
                            (S st.(rounds)) st.(picked) in
        match selected.2 with
        | Some selected_feature =>
            if truthy_str selected_feature then
              forward_while fuel'
                (mkSearch (st.(current_features) ++ [selected_feature])
                          selected.1 (S st.(rounds))
                          (st.(picked) ++ [selected_feature]))
            else Some st'
        | None => Some st'
        end
    end.

Definition forward_start (baseline : Score) : Search :=
  mkSearch [] (Solution_init baseline) 0 [].

Definition forward (fuel : nat) (baseline : Score) : option Search :=
  forward_while fuel (forward_start baseline).
End Forward.

(** [list.remove(x)]: drops the first occurrence of [x].  (Python raises
    [ValueError] when there is none; the search only removes a feature it
    has just iterated over, see [backward_round_selected].) *)
Fixpoint list_remove_first (x : Feature) (l : list Feature) : list Feature :=
  match l with
  | [] => []
  | y :: l' => if decide (x = y) then l' else y :: list_remove_first x l'
  end.

Section Backward.
Variable score : list Feature → Score.

(** Body of [for feature in current_features]:
<<
      new_features = [f for f in current_features if f != feature]
      mse = -np.average(cross_val_score(...))
      if best.update(new_features, mse):
          removed_feature = feature
>> *)
Fixpoint backward_for (current : list Feature) (cands : list Feature)
    (r : Round) : Round :=
  match cands with
  | [] => r
  | feature :: rest =>
      let new_features := filter (λ f, f ≠ feature) current in
      let mse := score new_features in
      let '(b, improved) := update r.1 new_features mse in
      backward_for current rest
        (b, if improved then Some feature else r.2)
  end.

Definition backward_round (current : list Feature) (b : Solution) : Round :=
  backward_for current current (b, None).

(** [while len(current_features) > 0: ...] with
<<
      if removed_feature:
          current_features.remove(removed_feature)
      else:
          break
>> *)
Fixpoint backward_while (fuel : nat) (st : Search) : option Search :=
  if decide (length st.(current_features) = 0) then Some st
  else
    match fuel with
    | 0 => None
    | S fuel' =>
        let removed := backward_round st.(current_features) st.(best) in
        let st' := mkSearch st.(current_features) removed.1
                            (S st.(rounds)) st.(picked) in
        match removed.2 with
        | Some removed_feature =>
            if truthy_str removed_feature then
              backward_while fuel'
                (mkSearch
                   (list_remove_first removed_feature st.(current_features))
                   removed.1 (S st.(rounds))
                   (st.(picked) ++ [removed_feature]))
            else Some st'
        | None => Some st'
        end
    end.

(** [current_features = list(features)] and
    [best = Solution(y=y, features=current_features, mse=<score of it>)].
    The tracker may alias the list [current_features]; that list is
    mutated only by [remove], which runs after an [update] of the same
    round has rebound [best.features] to a fresh list, so the alias is
    never observed. *)
Definition backward_start (all_features : list Feature) (baseline : Score)
    : Search :=
  let current_features := all_features in
  mkSearch current_features
    (Solution_init_backward baseline (Some current_features)
       (Some (score current_features)))
    0 [].

Definition backward (fuel : nat) (all_features : list Feature)
    (baseline : Score) : option Search :=
  backward_while fuel (backward_start all_features baseline).
End Backward.

(** ** The common shape of the two inner loops *)

(** [forward_for] and [backward_for] differ only in the subset they build
    from the feature at hand ([candidate]); the lemmas on rounds are proved
    once for this shape ([forward_for_shape], [backward_for_shape]). *)
Fixpoint round_for (score : list Feature → Score)
    (candidate : Feature → list Feature) (cands : list Feature) (r : Round)
    : Round :=
  match cands with
  | [] => r
  | feature :: rest =>
      let '(b, improved) :=
        update r.1 (candidate feature) (score (candidate feature)) in
      round_for score candidate rest
        (b, if improved then Some feature else r.2)
  end.

(** The candidates of a round with the scores the oracle gives them. *)
Definition scored (score : list Feature → Score)
    (candidate : Feature → list Feature) (cands : list Feature)
    : list (list Feature * Score) :=
  (λ f, (candidate f, score (candidate f))) <$> cands.

(** ** Example inputs *)

(** The toy oracle of the worked example: [score(subset) = 10 - |subset|]. *)
Definition toy_score (subset : list Feature) : Score :=
  score_of_Z (10 - Z.of_nat (length subset)).

(** A sequence of candidates for a tracker started at 10: an improvement, a
    NaN, a further improvement, a tie with it, and a worse score. *)
Definition tracker_candidates : list (list Feature * Score) :=
  [(["a"], score_of_Z 7); (["b"], S754_nan); (["c"], score_of_Z 3);
   (["d"], score_of_Z 3); (["e"], score_of_Z 8)].

(** An oracle that scores every subset 5: all candidates of a round tie. *)
Definition tie_score (subset : list Feature) : Score := score_of_Z 5.

(** An oracle under which the forward search takes ["B"] first and ["A"]
    second. *)
Definition late_first_score (subset : list Feature) : Score :=
  if decide (subset = ["A"]) then score_of_Z 3
  else if decide (subset = ["B"]) then score_of_Z 2
  else score_of_Z 1.

(** An oracle whose best single feature is the column named by the empty
    string. *)
Definition unnamed_best_score (subset : list Feature) : Score :=
  if decide (subset = [""]) then score_of_Z 1
  else if decide (subset = ["x"]) then score_of_Z 2
  else score_of_Z 5.

(** An oracle under which the model is better off without the column named
    by the empty string. *)
Definition unnamed_worst_score (subset : list Feature) : Score :=
  if decide (subset = ["x"]) then score_of_Z 2 else score_of_Z 5.

(** An oracle that reports a perfect fit (a mean squared error of [0.0])
    for every subset. *)
Definition perfect_score (subset : list Feature) : Score := S754_zero false.

(** ** Column lists of the notebooks *)

(** [features = [column for column in d.columns if column != label]]: the
    feature universe of the search notebooks, read off the columns of the
    data frame. *)
Definition feature_columns (columns : list Feature) (label : Feature)
    : list Feature :=
  filter (λ column, column ≠ label) columns.

(** A [ColumnTransformer] is given a list of [(name, transformer, columns)];
    the transformers are the library's, the model keeps the names and the
    column lists. *)
Definition Transformers : Type := list (string * list Feature).

(** With the default [remainder='drop'], the columns a [ColumnTransformer]
    hands on are those of its transformers, in turn. *)
Definition transformed_columns (ts : Transformers) : list Feature :=
  ts ≫= snd.

(** [get_model(features)] of the stepwise notebooks:
<<
    categorical_features = ['origin'] if 'origin' in features else []
    numerical_features = [col for col in features if col != 'origin']
    return make_pipeline(
        ColumnTransformer(transformers=[
            ('categorical', OneHotEncoder(), categorical_features),
            ('numerical', StandardScaler(), numerical_features)]),
        LinearRegression())
>> *)
Definition get_model (features : list Feature) : Transformers :=
  let categorical_features :=
    if decide ("origin" ∈ features) then ["origin"] else [] in
  let numerical_features := filter (λ col, col ≠ "origin") features in
  [("categorical", categorical_features); ("numerical", numerical_features)].



(** The columns of [auto-mpg.csv], as the notebooks name them. *)
Definition auto_mpg_columns : list Feature :=
  ["mpg"; "cylinders"; "displacement"; "hp"; "weight"; "acceleration";
   "year"; "origin"].

(** An oracle that depends on the subset as a set only and that likes
    ["B"]: 4 with ["B"] in the subset, 8 without, two less when ["A"] is
    there too. *)
Definition set_score (subset : list Feature) : Score :=
  score_of_Z ((if decide ("B" ∈ subset) then 4 else 8)
              - (if decide ("A" ∈ subset) then 2 else 0)).

(** ** Invariants of the stepwise loops *)

(** What holds of the forward search each time the [while] guard is
    evaluated: the current subset lists distinct, non-empty names of the
    universe, in the order they were committed, one per round so far. *)
Definition forward_inv (all_features : list Feature) (st : Search) : Prop :=
  NoDup (current_features st) ∧
  (∀ f, f ∈ current_features st → f ∈ all_features) ∧
  ("" ∉ current_features st) ∧
  picked st = current_features st ∧
  rounds st = length (current_features st).

(** The tracker at those points: untouched while nothing has been
    committed, and otherwise holding the current subset with its score. *)
Definition forward_tracker_inv (score : list Feature → Score)
    (baseline : Score) (st : Search) : Prop :=
  (best st = Solution_init baseline ∧ current_features st = []) ∨
  (current_features st ≠ [] ∧
   best st = mkSolution (current_features st) (score (current_features st))).

(** The same for the backward search: the current subset is what is left
    of the universe, in universe order, one feature gone per round. *)
Definition backward_inv (all_features : list Feature) (st : Search) : Prop :=
  current_features st `sublist_of` all_features ∧
  length (current_features st) + length (picked st) = length all_features ∧
  (∀ f, f ∈ picked st → f ∈ all_features ∧ f ≠ "") ∧
  rounds st = length (picked st).

Definition backward_tracker_inv (score : list Feature → Score)
    (start : Solution) (all_features : list Feature) (st : Search) : Prop :=
  (best st = start ∧ current_features st = all_features) ∨
  best st = mkSolution (current_features st) (score (current_features st)).

(* ===================================================================== *)
(** * Part II: properties *)
(* ===================================================================== *)

(** ** The order on scores *)

Ltac cmp_cases :=
  repeat match goal with
  | |- context [Z.compare ?a ?b] => destruct (Z.compare_spec a b)
  | H : context [Z.compare ?a ?b] |- _ => destruct (Z.compare_spec a b)
  | |- context [Pos.compare_cont Eq ?a ?b] =>
      change (Pos.compare_cont Eq a b) with (Pos.compare a b);
      destruct (Pos.compare_spec a b)
  | H : context [Pos.compare_cont Eq ?a ?b] |- _ =>
      change (Pos.compare_cont Eq a b) with (Pos.compare a b) in H;
      destruct (Pos.compare_spec a b)
  end.

Ltac float_cases a := destruct a as [[]|[]| |[] ? ?].

Ltac cmp_solve :=
  cmp_cases; simpl in *; try discriminate; try reflexivity; try lia.

Lemma SFltb_trans (a b c : Score) :
  SFltb a b = true → SFltb b c = true → SFltb a c = true.
Proof.
  unfold SFltb, SFcompare.
  float_cases a; float_cases b; float_cases c;
    try discriminate; try reflexivity; intros H1 H2; cmp_solve.
Qed.

Lemma SFltb_irrefl (a : Score) : SFltb a a = false.
Proof. unfold SFltb, SFcompare. float_cases a; try reflexivity; cmp_solve. Qed.

Lemma SFltb_not_nan (a b : Score) :
  SFltb a b = true → is_nan a = false ∧ is_nan b = false.
Proof. float_cases a; float_cases b; try discriminate; done. Qed.

Lemma SFltb_leb (a b : Score) : SFltb a b = true → SFleb a b = true.
Proof. unfold SFltb, SFleb. destruct (SFcompare a b) as [[]|]; congruence. Qed.

(** On scores that are numbers the order is total. *)
Lemma SFleb_total (a b : Score) :
  is_nan a = false → is_nan b = false →
  SFleb a b = false → SFltb b a = true.
Proof.
  unfold SFltb, SFleb, SFcompare.
  float_cases a; float_cases b;
    try discriminate; try reflexivity; intros _ _ H; cmp_solve.
Qed.

Lemma SFltb_false_leb (a b : Score) :
  is_nan a = false → is_nan b = false →
  SFltb a b = false → SFleb b a = true.
Proof.
  unfold SFltb, SFleb, SFcompare.
  float_cases a; float_cases b;
    try discriminate; try reflexivity; intros _ _ H; cmp_solve.
Qed.

Lemma SFleb_refl (a : Score) : is_nan a = false → SFleb a a = true.
Proof.
  intros Ha. apply SFltb_false_leb; auto using SFltb_irrefl.
Qed.

(** A tie: the two scores compare equal (as [==] does, so the two zeros
    tie). *)
Lemma SFeqb_not_ltb (a b : Score) : SFeqb a b = true → SFltb a b = false.
Proof. unfold SFeqb, SFltb. destruct (SFcompare a b) as [[]|]; congruence. Qed.

(** ** The tracker *)

Lemma update_improves (self : Solution) fs m :
  SFltb m (mse self) = true → update self fs m = (mkSolution fs m, true).
Proof. unfold update. by intros ->. Qed.

Lemma update_keeps (self : Solution) fs m :
  SFltb m (mse self) = false → update self fs m = (self, false).
Proof. unfold update. by intros ->. Qed.

(** C2.  [update] replaces the stored best by the candidate and returns
    [true] exactly when the candidate's score is strictly below the stored
    one; in every other case the tracker is the one it was and the call
    returns [false].  In particular a candidate that ties the incumbent
    does not replace it. *)
Theorem update_strict (self : Solution) (fs : list Feature) (m : Score) :
  ((update self fs m).2 = true ↔ SFltb m (mse self) = true) ∧
  ((update self fs m).2 = true → (update self fs m).1 = mkSolution fs m) ∧
  ((update self fs m).2 = false → (update self fs m).1 = self) ∧
  (SFeqb m (mse self) = true → update self fs m = (self, false)).
Proof.
  split_and!.
  - unfold update. destruct (SFltb m (mse self)); simpl; split; congruence.
  - unfold update. destruct (SFltb m (mse self)); simpl; [done | discriminate].
  - unfold update. destruct (SFltb m (mse self)); simpl; [discriminate | done].
  - intros Htie. apply update_keeps, SFeqb_not_ltb, Htie.
Qed.

(** C6.  A NaN candidate never improves: the tracker is unchanged and the
    call returns [false], whatever the stored score is. *)
Theorem update_nan (self : Solution) (fs : list Feature) :
  update self fs S754_nan = (self, false).
Proof. apply update_keeps. reflexivity. Qed.

(** *** Sequences of updates *)

Lemma updates_snoc (self : Solution) cs c :
  updates self (cs ++ [c]) = (update (updates self cs) c.1 c.2).1.
Proof. unfold updates. by rewrite fold_left_app. Qed.

Lemma update_mse_cases (self : Solution) fs m :
  (SFltb m (mse self) = true ∧ update self fs m = (mkSolution fs m, true)) ∨
  (SFltb m (mse self) = false ∧ update self fs m = (self, false)).
Proof.
  destruct (SFltb m (mse self)) eqn:E; [left | right];
    auto using update_improves, update_keeps.
Qed.

Lemma update_not_nan (self : Solution) fs m :
  is_nan (mse self) = false → is_nan (mse (update self fs m).1) = false.
Proof.
  intros Hs. destruct (update_mse_cases self fs m) as [[Hlt ->]|[_ ->]]; simpl;
    [by apply SFltb_not_nan in Hlt as [? _] | done].
Qed.

Lemma updates_not_nan (self : Solution) cs :
  is_nan (mse self) = false → is_nan (mse (updates self cs)) = false.
Proof.
  revert self. induction cs as [|c cs IH]; intros self Hs; [done|].
  apply IH, update_not_nan, Hs.
Qed.

(** One call never raises the stored score. *)
Lemma update_mse_le (self : Solution) fs m :
  is_nan (mse self) = false →
  SFleb (mse (update self fs m).1) (mse self) = true.
Proof.
  intros Hs. destruct (update_mse_cases self fs m) as [[Hlt ->]|[_ ->]]; simpl;
    [by apply SFltb_leb | by apply SFleb_refl].
Qed.

(** The stored score is the initial one or one of the candidates'. *)
Lemma updates_mse_seen (self : Solution) cs :
  mse (updates self cs) ∈ mse self :: cs.*2.
Proof.
  induction cs as [|c cs IH] using rev_ind; [simpl; left|].
  rewrite updates_snoc, fmap_app.
  rewrite app_comm_cons, elem_of_app.
  destruct (update_mse_cases (updates self cs) c.1 c.2) as [[_ ->]|[_ ->]];
    simpl; [right; left | by left].
Qed.

(** No score seen so far lies strictly below the stored one.  This holds
    for every float, NaN included. *)
Lemma updates_mse_lower (self : Solution) cs x :
  x ∈ mse self :: cs.*2 → SFltb x (mse (updates self cs)) = false.
Proof.
  induction cs as [|c cs IH] using rev_ind.
  - simpl. intros ->%list_elem_of_singleton. apply SFltb_irrefl.
  - rewrite updates_snoc, fmap_app, app_comm_cons, elem_of_app. simpl.
    intros Hx.
    destruct (update_mse_cases (updates self cs) c.1 c.2) as [[Hlt ->]|[Hge ->]];
      simpl.
    + destruct Hx as [Hx | ->%list_elem_of_singleton]; [|apply SFltb_irrefl].
      specialize (IH Hx). destruct (SFltb x c.2) eqn:E; [|done].
      by rewrite (SFltb_trans _ _ _ E Hlt) in IH.
    + destruct Hx as [Hx | ->%list_elem_of_singleton]; auto.
Qed.

(** One call never raises the stored score, in the sense that holds for
    every float: the old score is not strictly below the new one. *)
Lemma update_mse_not_above (self : Solution) fs m :
  SFltb (mse self) (mse (update self fs m).1) = false.
Proof.
  destruct (update_mse_cases self fs m) as [[Hlt ->]|[_ ->]]; simpl;
    [|apply SFltb_irrefl].
  destruct (SFltb (mse self) m) eqn:E; [|done].
  by rewrite <-(SFltb_irrefl m), (SFltb_trans _ _ _ Hlt E).
Qed.

(** C3.  Feed a tracker any sequence of candidates and look at it after
    any number [n] of calls.  (1) For every initial score: the next call
    does not raise the stored score, the stored score is the initial score
    or one of the [n] candidate scores passed so far, and none of these
    scores is strictly below it.  (2) When the initial score is a number
    (not NaN), in terms of [<=]: the next call leaves the stored score at or
    below what it was, and the stored score is at or below every number
    among the initial score and the [n] candidate scores, i.e. it is their
    minimum. *)
Theorem tracker_minimum (self : Solution) (cs : list (list Feature * Score)) :
  (∀ n, SFltb (mse (updates self (take n cs)))
              (mse (updates self (take (S n) cs))) = false ∧
        mse (updates self (take n cs)) ∈ mse self :: (take n cs).*2 ∧
        ∀ x, x ∈ mse self :: (take n cs).*2 →
             SFltb x (mse (updates self (take n cs))) = false) ∧
  (is_nan (mse self) = false →
   ∀ n, SFleb (mse (updates self (take (S n) cs)))
              (mse (updates self (take n cs))) = true ∧
        ∀ x, x ∈ mse self :: (take n cs).*2 → is_nan x = false →
             SFleb (mse (updates self (take n cs))) x = true).
Proof.
  split.
  - intros n. split_and!.
    + destruct (cs !! n) as [c|] eqn:E.
      * rewrite (take_S_r _ _ _ E), updates_snoc. apply update_mse_not_above.
      * apply lookup_ge_None in E. rewrite !take_ge by lia.
        apply SFltb_irrefl.
    + apply updates_mse_seen.
    + apply updates_mse_lower.
  - intros Hs n. split.
    + destruct (cs !! n) as [c|] eqn:E.
      * rewrite (take_S_r _ _ _ E), updates_snoc.
        apply update_mse_le, updates_not_nan, Hs.
      * apply lookup_ge_None in E. rewrite !take_ge by lia.
        apply SFleb_refl, updates_not_nan, Hs.
    + intros x Hx Hnan. apply SFltb_false_leb; auto using updates_not_nan.
      by apply updates_mse_lower.
Qed.

Lemma tracker_minimum_witness :
  updates (Solution_init (score_of_Z 10)) tracker_candidates
    = mkSolution ["c"] (score_of_Z 3) ∧
  SFleb (mse (updates (Solution_init (score_of_Z 10))
                (take 3 tracker_candidates)))
        (mse (updates (Solution_init (score_of_Z 10))
                (take 2 tracker_candidates))) = true ∧
  SFleb (mse (updates (Solution_init (score_of_Z 10))
                (take 5 tracker_candidates)))
        (score_of_Z 7) = true.
Proof.
  split; [reflexivity|].
  destruct (tracker_minimum (Solution_init (score_of_Z 10)) tracker_candidates)
    as [_ Hmin].
  split; [exact (proj1 (Hmin eq_refl 2))|].
  apply (proj2 (Hmin eq_refl 5)); [|reflexivity].
  right; left.
Defined.

(** ** Complete enumeration *)

(** *** [itertools.combinations] *)

Lemma elem_of_combinations {A} (pool : list A) (r : nat) (s : list A) :
  s ∈ combinations pool r ↔ s `sublist_of` pool ∧ length s = r.
Proof.
  revert r s. induction pool as [|x pool IH]; intros [|r] s; simpl.
  - rewrite list_elem_of_singleton, sublist_nil_r.
    split; [by intros -> | by intros [-> _]].
  - rewrite elem_of_nil, sublist_nil_r. split; [done | by intros [-> ?]].
  - rewrite list_elem_of_singleton. split.
    + intros ->. split; [apply sublist_nil_l | done].
    + by intros [_ ->%nil_length_inv].
  - rewrite elem_of_app, list_elem_of_fmap, sublist_cons_r. split.
    + intros [(s' & -> & [? <-]%IH) | [? ?]%IH]; simpl; eauto 6.
    + intros [[Hs | (s' & -> & Hs)] Hlen].
      * right. by apply IH.
      * left. exists s'. split; [done|]. apply IH. simpl in Hlen. split; [done | lia].
Qed.

Lemma combinations_too_long {A} (pool : list A) (r : nat) :
  length pool < r → combinations pool r = [].
Proof.
  intros Hlt. destruct (combinations pool r) as [|s ?] eqn:E; [done|].
  assert (s ∈ combinations pool r) as [Hs%sublist_length ?]%elem_of_combinations
    by (rewrite E; left).
  lia.
Qed.

Lemma NoDup_combinations {A} (pool : list A) (r : nat) :
  NoDup pool → NoDup (combinations pool r).
Proof.
  revert r. induction pool as [|x pool IH]; intros [|r] Hnd; simpl;
    try apply NoDup_singleton; try apply NoDup_nil_2.
  apply NoDup_cons in Hnd as [Hx Hnd]. apply NoDup_app. split_and!.
  - apply (NoDup_fmap_2 _); auto.
  - intros s (s' & -> & _)%list_elem_of_fmap [Hs _]%elem_of_combinations.
    apply Hx. eapply elem_of_sublist; [|exact Hs]. left.
  - auto.
Qed.

(** *** Counting *)

Lemma length_bind {A B} (f : A → list B) (l : list A) :
  length (l ≫= f) = sum_list_with (λ x, length (f x)) l.
Proof. induction l as [|x l IH]; csimpl; [done|]. by rewrite length_app, IH. Qed.

Lemma sum_list_with_shift (f : nat → nat) (a n : nat) :
  sum_list_with f (seq (S a) n) = sum_list_with (λ k, f (S k)) (seq a n).
Proof. revert a. induction n as [|n IH]; intros a; simpl; [done|]. by rewrite IH. Qed.

Lemma sum_list_with_pointwise {A} (f g : A → nat) (l : list A) :
  (∀ x, f x = g x) → sum_list_with f l = sum_list_with g l.
Proof. intros H. induction l as [|x l IH]; simpl; [done|]. by rewrite H, IH. Qed.

Lemma sum_list_with_plus {A} (f g : A → nat) (l : list A) :
  sum_list_with (λ x, f x + g x) l = sum_list_with f l + sum_list_with g l.
Proof. induction l as [|x l IH]; simpl; [done|]. rewrite IH. lia. Qed.

Lemma sum_list_with_zero {A} (f : A → nat) (l : list A) :
  (∀ x, x ∈ l → f x = 0) → sum_list_with f l = 0.
Proof.
  induction l as [|x l IH]; intros H; simpl; [done|].
  rewrite (H x), IH; [done | | left]. intros y Hy. apply H. by right.
Qed.

(** The combinations of all sizes [0 .. n], [n] at least the length of the
    pool, are [2 ^ p] in number. *)
Lemma combinations_count {A} (pool : list A) (n : nat) :
  length pool ≤ n →
  sum_list_with (λ r, length (combinations pool r)) (seq 0 (S n))
    = 2 ^ length pool.
Proof.
  revert n. induction pool as [|x pool IH]; intros n Hn.
  - cbn [seq sum_list_with]. rewrite sum_list_with_zero; [done|].
    intros r [Hr _]%elem_of_seq. destruct r; [lia | done].
  - destruct n as [|n]; [simpl in Hn; lia|]. simpl in Hn.
    change (seq 0 (S (S n))) with (0 :: seq 1 (S n)).
    cbn [sum_list_with]. rewrite sum_list_with_shift.
    cbn [combinations].
    rewrite (sum_list_with_pointwise _
               (λ r, length (combinations pool r) +
                     length (combinations pool (S r))))
      by (intros; by rewrite length_app, length_fmap).
    rewrite sum_list_with_plus,
      <-(sum_list_with_shift (λ r, length (combinations pool r))), (IH n)
      by lia.
    pose proof (IH (S n) ltac:(lia)) as HS.
    change (seq 0 (S (S n))) with (0 :: seq 1 (S n)) in HS.
    cbn [sum_list_with] in HS.
    replace (combinations pool 0) with [@nil A] in HS by (by destruct pool).
    simpl length in *. rewrite Nat.pow_succ_r'. lia.
Qed.

(** *** The run *)

Lemma updates_app (self : Solution) cs1 cs2 :
  updates self (cs1 ++ cs2) = updates (updates self cs1) cs2.
Proof. unfold updates. by rewrite fold_left_app. Qed.

Lemma for_subset_spec score subsets st :
  for_subset score subsets st =
    mkEnumeration
      (updates (e_best st) ((λ s, (s, score s)) <$> subsets))
      (e_calls st ++ subsets).
Proof.
  revert st. induction subsets as [|s subsets IH]; intros [b calls]; simpl.
  - by rewrite app_nil_r.
  - rewrite IH. simpl. by rewrite <-app_assoc.
Qed.

Lemma for_n_features_spec score all_features sizes st :
  for_n_features score all_features sizes st =
    mkEnumeration
      (updates (e_best st)
         ((λ s, (s, score s)) <$> (sizes ≫= combinations all_features)))
      (e_calls st ++ (sizes ≫= combinations all_features)).
Proof.
  revert st. induction sizes as [|n sizes IH]; intros [b calls]; csimpl.
  - by rewrite app_nil_r.
  - rewrite IH, for_subset_spec. simpl.
    by rewrite fmap_app, updates_app, <-app_assoc.
Qed.

Lemma exhaustive_spec score all_features baseline :
  exhaustive score all_features baseline =
    mkEnumeration
      (updates (Solution_init baseline)
         ((λ s, (s, score s)) <$> subsets_by_size all_features))
      (subsets_by_size all_features).
Proof. unfold exhaustive. by rewrite for_n_features_spec. Qed.

Lemma elem_of_subsets_by_size {A} (pool s : list A) :
  s ∈ subsets_by_size pool ↔ s ≠ [] ∧ s `sublist_of` pool.
Proof.
  unfold subsets_by_size. rewrite list_elem_of_bind. split.
  - intros (r & [Hs Hlen]%elem_of_combinations & [Hr _]%elem_of_seq).
    split; [|done]. intros ->. simpl in Hlen. lia.
  - intros [Hne Hs]. exists (length s). split.
    + by apply elem_of_combinations.
    + apply elem_of_seq. pose proof (sublist_length _ _ Hs).
      destruct s; [done | simpl in *; lia].
Qed.

Lemma NoDup_subsets_by_size {A} (pool : list A) :
  NoDup pool → NoDup (subsets_by_size pool).
Proof.
  intros Hnd. apply NoDup_bind; [| |apply NoDup_seq].
  - intros r1 r2 s _ _ [_ <-]%elem_of_combinations [_ <-]%elem_of_combinations.
    done.
  - intros r _. by apply NoDup_combinations.
Qed.

Lemma length_subsets_by_size {A} (pool : list A) :
  length (subsets_by_size pool) = 2 ^ length pool - 1.
Proof.
  unfold subsets_by_size. rewrite length_bind.
  pose proof (combinations_count pool (length pool) (le_n _)) as H.
  change (seq 0 (S (length pool))) with (0 :: seq 1 (length pool)) in H.
  cbn [sum_list_with] in H.
  replace (combinations pool 0) with [@nil A] in H by (by destruct pool).
  simpl length in H. lia.
Qed.

(** C1.  On a universe without repeated names, and for every oracle, the
    enumeration calls the oracle on the combinations of size 1, then of
    size 2, ... up to size [p], each size in the order of
    [itertools.combinations]; these calls are [2 ^ p - 1] in number, no
    subset is scored twice, and the subsets scored are exactly the
    non-empty subsequences of the universe.  The list of calls does not
    depend on the scores (nothing is skipped), and the tracker returned is
    the one obtained by feeding every one of these scores to [update]. *)
Theorem exhaustive_complete (score : list Feature → Score)
    (all_features : list Feature) (baseline : Score) :
  NoDup all_features →
  e_calls (exhaustive score all_features baseline)
    = subsets_by_size all_features ∧
  length (e_calls (exhaustive score all_features baseline))
    = 2 ^ length all_features - 1 ∧
  NoDup (e_calls (exhaustive score all_features baseline)) ∧
  (∀ s, s ∈ e_calls (exhaustive score all_features baseline)
        ↔ s ≠ [] ∧ s `sublist_of` all_features) ∧
  e_best (exhaustive score all_features baseline)
    = updates (Solution_init baseline)
        ((λ s, (s, score s)) <$> e_calls (exhaustive score all_features baseline)).
Proof.
  intros Hnd. rewrite exhaustive_spec. simpl. split_and!.
  - done.
  - apply length_subsets_by_size.
  - by apply NoDup_subsets_by_size.
  - apply elem_of_subsets_by_size.
  - done.
Qed.

Lemma exhaustive_complete_witness :
  NoDup ["A"; "B"; "C"] ∧
  e_calls (exhaustive toy_score ["A"; "B"; "C"] (score_of_Z 10))
    = [["A"]; ["B"]; ["C"]; ["A"; "B"]; ["A"; "C"]; ["B"; "C"];
       ["A"; "B"; "C"]] ∧
  length (e_calls (exhaustive toy_score ["A"; "B"; "C"] (score_of_Z 10))) = 7 ∧
  e_best (exhaustive toy_score ["A"; "B"; "C"] (score_of_Z 10))
    = mkSolution ["A"; "B"; "C"] (score_of_Z 7).
Proof.
  assert (NoDup ["A"; "B"; "C"]) as Hnd
    by (apply (bool_decide_unpack _); vm_compute; exact I).
  split; [exact Hnd|].
  destruct (exhaustive_complete toy_score ["A"; "B"; "C"] (score_of_Z 10) Hnd)
    as (Hcalls & Hlen & _ & _ & Hbest).
  split; [rewrite Hcalls; reflexivity|].
  split; [exact Hlen|].
  rewrite Hbest, Hcalls. vm_compute. reflexivity.
Defined.

(** ** Rounds of the stepwise searches *)

#[local] Arguments update : simpl never.

Lemma forward_for_shape score current cands r :
  forward_for score current cands r
    = round_for score (λ f, current ++ [f]) cands r.
Proof.
  revert r. induction cands as [|f cands IH]; intros r; simpl; [done|].
  destruct (update _ _ _). apply IH.
Qed.

Lemma backward_for_shape score current cands r :
  backward_for score current cands r
    = round_for score (λ f, filter (λ g, g ≠ f) current) cands r.
Proof.
  revert r. induction cands as [|f cands IH]; intros r; simpl; [done|].
  destruct (update _ _ _). apply IH.
Qed.

Section Rounds.
Variable score : list Feature → Score.
Variable candidate : Feature → list Feature.

Lemma round_for_app cands1 cands2 r :
  round_for score candidate (cands1 ++ cands2) r
    = round_for score candidate cands2 (round_for score candidate cands1 r).
Proof.
  revert r. induction cands1 as [|f cands1 IH]; intros r; simpl; [done|].
  destruct (update _ _ _). apply IH.
Qed.

(** The tracker after a round is the tracker after the round's updates. *)
Lemma round_for_best cands r :
  (round_for score candidate cands r).1
    = updates r.1 (scored score candidate cands).
Proof.
  revert r. induction cands as [|f cands IH]; intros r; simpl; [done|].
  destruct (update _ _ _) as [b improved]. rewrite IH.
  unfold scored, updates. by simpl.
Qed.

(** A round in which no candidate beats the incumbent changes nothing. *)
Lemma round_for_no_improvement cands r :
  (∀ f, f ∈ cands → SFltb (score (candidate f)) (mse r.1) = false) →
  round_for score candidate cands r = r.
Proof.
  revert r. induction cands as [|f cands IH]; intros [b sel] H; simpl; [done|].
  simpl in H. rewrite update_keeps by (apply H; left).
  apply IH. intros g Hg. apply H. by right.
Qed.

(** Either no update of the round succeeded, or the round ends on the
    candidate of one of its features, strictly below where it started. *)
Lemma round_for_cases cands r :
  (round_for score candidate cands r = r ∧
   ∀ f, f ∈ cands → SFltb (score (candidate f)) (mse r.1) = false) ∨
  (∃ f, f ∈ cands ∧
        round_for score candidate cands r
          = (mkSolution (candidate f) (score (candidate f)), Some f) ∧
        SFltb (score (candidate f)) (mse r.1) = true).
Proof.
  induction cands as [|f cands IH] using rev_ind.
  - left. split; [done|]. intros f Hf. by apply elem_of_nil in Hf.
  - rewrite round_for_app. simpl.
    destruct IH as [[-> Hno] | (g & Hg & -> & Hlt)].
    + destruct (update_mse_cases r.1 (candidate f) (score (candidate f)))
        as [[Hlt ->]|[Hge ->]].
      * right. exists f. rewrite elem_of_app, list_elem_of_singleton. auto.
      * left. destruct r as [b sel]. split; [done|].
        intros h [Hh | ->%list_elem_of_singleton]%elem_of_app; auto.
    + right. simpl.
      destruct (update_mse_cases (mkSolution (candidate g) (score (candidate g)))
                  (candidate f) (score (candidate f))) as [[Hlt' ->]|[_ ->]].
      * exists f. rewrite elem_of_app, list_elem_of_singleton.
        split_and!; [auto | done |]. exact (SFltb_trans _ _ _ Hlt' Hlt).
      * exists g. rewrite elem_of_app. auto.
Qed.

(** After a round, no candidate of the same round beats the tracker. *)
Lemma round_for_settled cands r f :
  f ∈ cands →
  SFltb (score (candidate f)) (mse (round_for score candidate cands r).1)
    = false.
Proof.
  intros Hf. rewrite round_for_best. apply updates_mse_lower. right.
  unfold scored. rewrite <-list_fmap_compose.
  apply (list_elem_of_fmap_2 (λ f, score (candidate f))), Hf.
Qed.

(** Running the same round again, from the tracker the round left, changes
    nothing: no update succeeds. *)
Lemma round_for_again cands r :
  round_for score candidate cands
    ((round_for score candidate cands r).1, None)
  = ((round_for score candidate cands r).1, None).
Proof.
  apply round_for_no_improvement. intros f Hf. by apply round_for_settled.
Qed.

(** The feature a round selects is one it iterated over, its selection
    means that the tracker went strictly down, and the tracker then holds
    that feature's candidate. *)
Lemma round_for_selected cands b b' f :
  round_for score candidate cands (b, None) = (b', Some f) →
  f ∈ cands ∧ b' = mkSolution (candidate f) (score (candidate f)) ∧
  SFltb (mse b') (mse b) = true.
Proof.
  intros H.
  destruct (round_for_cases cands (b, None)) as [[E _] | (g & Hg & E & Hlt)];
    rewrite E in H; [discriminate|]. by simplify_eq.
Qed.

(** The winner of a round: a feature that improves the incumbent, with
    every feature iterated before it strictly worse (or scored NaN) and no
    feature iterated after it strictly better.  Among the features tied
    for the round's best score it is the one iterated first. *)
Lemma round_for_winner pre f post b sel :
  SFltb (score (candidate f)) (mse b) = true →
  (∀ g, g ∈ pre → SFleb (score (candidate g)) (score (candidate f)) = false) →
  (∀ g, g ∈ post → SFltb (score (candidate g)) (score (candidate f)) = false) →
  round_for score candidate (pre ++ f :: post) (b, sel)
    = (mkSolution (candidate f) (score (candidate f)), Some f).
Proof.
  intros Hf Hpre Hpost. rewrite round_for_app.
  assert (SFltb (score (candidate f))
            (mse (round_for score candidate pre (b, sel)).1) = true) as Hlt.
  { destruct (round_for_cases pre (b, sel)) as [[-> _] | (g & Hg & -> & Hlt)];
      [done|]. simpl.
    apply SFltb_not_nan in Hlt as [? _]. apply SFltb_not_nan in Hf as [? _].
    apply SFleb_total; auto. }
  simpl. rewrite (update_improves _ _ _ Hlt).
  apply round_for_no_improvement. exact Hpost.
Qed.
End Rounds.

(** ** The forward loop *)

Lemma forward_round_shape score order all_features current b :
  forward_round score order all_features current b
    = round_for score (λ f, current ++ [f])
        (order (remaining all_features current)) (b, None).
Proof. apply forward_for_shape. Qed.

Lemma forward_while_unfold score order all_features fuel st :
  forward_while score order all_features fuel st =
    if decide (current_features st = all_features) then Some st
    else
      match fuel with
      | 0 => None
      | S fuel' =>
          let selected :=
            forward_round score order all_features (current_features st)
              (best st) in
          let st' := mkSearch (current_features st) selected.1
                              (S (rounds st)) (picked st) in
          match selected.2 with
          | Some selected_feature =>
              if truthy_str selected_feature then
                forward_while score order all_features fuel'
                  (mkSearch (current_features st ++ [selected_feature])
                            selected.1 (S (rounds st))
                            (picked st ++ [selected_feature]))
              else Some st'
          | None => Some st'
          end
      end.
Proof. by destruct fuel. Qed.

Lemma length_list_difference_app (l k1 k2 : list Feature) :
  length (list_difference l (k1 ++ k2)) ≤ length (list_difference l k1).
Proof.
  induction l as [|x l IH]; simpl; [done|].
  repeat case_decide; simpl; try lia.
  exfalso. set_unfold. tauto.
Qed.

Lemma list_difference_shrinks (l k : list Feature) (f : Feature) :
  f ∈ list_difference l k →
  length (list_difference l (k ++ [f])) < length (list_difference l k).
Proof.
  induction l as [|x l IH]; simpl; [by intros ?%elem_of_nil|].
  pose proof (length_list_difference_app l k [f]).
  repeat case_decide; simpl; intros Hf.
  - auto.
  - exfalso. set_unfold. tauto.
  - lia.
  - apply elem_of_cons in Hf as [->|Hf]; [|specialize (IH Hf); lia].
    exfalso. set_unfold. tauto.
Qed.

Lemma remaining_all (all_features : list Feature) :
  remaining all_features all_features = [].
Proof.
  unfold remaining. destruct (list_difference _ _) as [|x l] eqn:E; [done|].
  assert (x ∈ list_difference (remove_dups all_features) all_features) as H
    by (rewrite E; left).
  apply list_elem_of_difference in H as [H Hn].
  destruct Hn. by rewrite elem_of_remove_dups in H.
Qed.

Lemma length_remove_dups (l : list Feature) :
  length (remove_dups l) ≤ length l.
Proof. induction l as [|x l IH]; simpl; [done|]. case_decide; simpl; lia. Qed.

Lemma length_remaining_nil (all_features : list Feature) :
  length (remaining all_features []) ≤ length all_features.
Proof.
  unfold remaining.
  etrans; [|apply (length_remove_dups all_features)].
  induction (remove_dups all_features) as [|x l IH]; simpl; [done | lia].
Qed.

Section ForwardLoop.
Variable score : list Feature → Score.
Variable order : list Feature → list Feature.
Variable all_features : list Feature.
Hypothesis order_perm : ∀ l, order l ≡ₚ l.

Lemma forward_round_selected current b b' f :
  forward_round score order all_features current b = (b', Some f) →
  f ∈ remaining all_features current ∧
  b' = mkSolution (current ++ [f]) (score (current ++ [f])) ∧
  SFltb (mse b') (mse b) = true.
Proof.
  rewrite forward_round_shape. intros (Hf & ? & ?)%round_for_selected.
  by rewrite order_perm in Hf.
Qed.

(** A round over an exhausted universe selects nothing. *)
Lemma forward_round_exhausted current b :
  remaining all_features current = [] →
  forward_round score order all_features current b = (b, None).
Proof.
  intros E. rewrite forward_round_shape, E.
  by rewrite (proj1 (Permutation_nil_r _) (order_perm [])).
Qed.

(** The loop stops: a fuel above the number of features still missing is
    never used up. *)
Lemma forward_while_terminates fuel st :
  length (remaining all_features (current_features st)) < fuel →
  is_Some (forward_while score order all_features fuel st).
Proof.
  revert st. induction fuel as [|fuel IH]; intros st Hfuel; [lia|].
  rewrite forward_while_unfold. case_decide; [eauto|]. cbv zeta.
  destruct (forward_round _ _ _ _ _) as [b' [f|]] eqn:E; simpl; [|eauto].
  destruct (truthy_str f); [|eauto].
  apply IH. simpl. apply forward_round_selected in E as [Hf _].
  apply list_difference_shrinks in Hf. unfold remaining in *. lia.
Qed.

(** The loop body runs at most once more than there are features missing. *)
Lemma forward_while_rounds fuel st st' :
  forward_while score order all_features fuel st = Some st' →
  rounds st' ≤ rounds st + S (length (remaining all_features (current_features st))).
Proof.
  revert st. induction fuel as [|fuel IH]; intros st;
    rewrite forward_while_unfold; case_decide;
    try (intros; simplify_eq; lia).
  cbv zeta.
  destruct (forward_round _ _ _ _ _) as [b' [f|]] eqn:E; simpl;
    [|intros; simplify_eq; simpl; lia].
  destruct (truthy_str f); [|intros; simplify_eq; simpl; lia].
  intros Hw%IH. simpl in Hw. apply forward_round_selected in E as [Hf _].
  apply list_difference_shrinks in Hf. unfold remaining in *. lia.
Qed.

Lemma forward_terminates baseline :
  ∃ st, forward score order all_features (S (length all_features)) baseline
          = Some st ∧
        rounds st ≤ S (length all_features).
Proof.
  destruct (forward_while_terminates (S (length all_features))
              (forward_start baseline)) as [st Hst].
  { simpl. pose proof (length_remaining_nil all_features). lia. }
  exists st. split; [exact Hst|].
  apply forward_while_rounds in Hst. simpl in Hst.
  pose proof (length_remaining_nil all_features). lia.
Qed.

(** Once the loop has stopped, one more round changes nothing. *)
Lemma forward_while_settled fuel st st' :
  forward_while score order all_features fuel st = Some st' →
  forward_round score order all_features (current_features st') (best st')
    = (best st', None).
Proof.
  revert st. induction fuel as [|fuel IH]; intros st;
    rewrite forward_while_unfold; case_decide as Hguard.
  - intros [= <-]. apply forward_round_exhausted.
    rewrite Hguard. apply remaining_all.
  - done.
  - intros [= <-]. apply forward_round_exhausted.
    rewrite Hguard. apply remaining_all.
  - cbv zeta.
    assert (
      forward_round score order all_features (current_features st)
        (forward_round score order all_features (current_features st) (best st)).1
      = ((forward_round score order all_features (current_features st) (best st)).1,
         None)) as Hagain
      by (rewrite !forward_round_shape; apply round_for_again).
    destruct (forward_round score order all_features (current_features st)
                (best st)) as [b' [f|]] eqn:E; simpl in *.
    + destruct (truthy_str f); [apply IH|]. by intros [= <-].
    + by intros [= <-].
Qed.
End ForwardLoop.

(** ** The backward loop *)

Section BackwardLoop.
Variable score : list Feature → Score.

Lemma backward_round_shape current b :
  backward_round score current b
    = round_for score (λ f, filter (λ g, g ≠ f) current) current (b, None).
Proof. apply backward_for_shape. Qed.

Lemma backward_while_unfold fuel st :
  backward_while score fuel st =
    if decide (length (current_features st) = 0) then Some st
    else
      match fuel with
      | 0 => None
      | S fuel' =>
          let removed :=
            backward_round score (current_features st) (best st) in
          let st' := mkSearch (current_features st) removed.1
                              (S (rounds st)) (picked st) in
          match removed.2 with
          | Some removed_feature =>
              if truthy_str removed_feature then
                backward_while score fuel'
                  (mkSearch
                     (list_remove_first removed_feature (current_features st))
                     removed.1 (S (rounds st))
                     (picked st ++ [removed_feature]))
              else Some st'
          | None => Some st'
          end
      end.
Proof. by destruct fuel. Qed.

(** The feature handed to [remove] is in the list: no [ValueError]. *)
Lemma backward_round_selected current b b' f :
  backward_round score current b = (b', Some f) →
  f ∈ current ∧
  b' = mkSolution (filter (λ g, g ≠ f) current)
                  (score (filter (λ g, g ≠ f) current)) ∧
  SFltb (mse b') (mse b) = true.
Proof. rewrite backward_round_shape. apply round_for_selected. Qed.

Lemma length_list_remove_first (f : Feature) (l : list Feature) :
  f ∈ l → S (length (list_remove_first f l)) = length l.
Proof.
  induction l as [|x l IH]; simpl; [by intros ?%elem_of_nil|].
  case_decide as Hx; [done|]. intros [?|Hf]%elem_of_cons; [done|].
  simpl. by rewrite IH.
Qed.

(** The loop stops within as many rounds as there are features. *)
Lemma backward_while_terminates fuel st :
  length (current_features st) ≤ fuel →
  is_Some (backward_while score fuel st).
Proof.
  revert st. induction fuel as [|fuel IH]; intros st Hfuel;
    rewrite backward_while_unfold; case_decide; eauto; [lia|].
  cbv zeta.
  destruct (backward_round _ _ _) as [b' [f|]] eqn:E; simpl; [|eauto].
  destruct (truthy_str f); [|eauto].
  apply IH. simpl. apply backward_round_selected in E as [Hf _].
  apply length_list_remove_first in Hf. lia.
Qed.

Lemma backward_while_rounds fuel st st' :
  backward_while score fuel st = Some st' →
  rounds st' ≤ rounds st + length (current_features st).
Proof.
  revert st. induction fuel as [|fuel IH]; intros st;
    rewrite backward_while_unfold; case_decide;
    try (intros; simplify_eq; lia).
  cbv zeta.
  destruct (backward_round _ _ _) as [b' [f|]] eqn:E; simpl;
    [|intros; simplify_eq; simpl; lia].
  destruct (truthy_str f); [|intros; simplify_eq; simpl; lia].
  intros Hw%IH. simpl in Hw. apply backward_round_selected in E as [Hf _].
  apply length_list_remove_first in Hf. lia.
Qed.

Lemma backward_terminates all_features baseline :
  ∃ st, backward score (length all_features) all_features baseline = Some st ∧
        rounds st ≤ length all_features.
Proof.
  destruct (backward_while_terminates (length all_features)
              (backward_start score all_features baseline)) as [st Hst];
    [done|].
  exists st. split; [exact Hst|]. by apply backward_while_rounds in Hst.
Qed.

(** Once the loop has stopped, one more round changes nothing. *)
Lemma backward_while_settled fuel st st' :
  backward_while score fuel st = Some st' →
  backward_round score (current_features st') (best st') = (best st', None).
Proof.
  revert st. induction fuel as [|fuel IH]; intros st;
    rewrite backward_while_unfold; case_decide as Hguard.
  - intros [= <-]. by destruct (current_features st).
  - done.
  - intros [= <-]. by destruct (current_features st).
  - cbv zeta.
    assert (
      backward_round score (current_features st)
        (backward_round score (current_features st) (best st)).1
      = ((backward_round score (current_features st) (best st)).1, None))
      as Hagain
      by (rewrite !backward_round_shape; apply round_for_again).
    destruct (backward_round score (current_features st) (best st))
      as [b' [f|]] eqn:E; simpl in *.
    + destruct (truthy_str f); [apply IH|]. by intros [= <-].
    + by intros [= <-].
Qed.
End BackwardLoop.

(** ** Properties of the searches *)

Lemma truthy_str_false (f : Feature) : truthy_str f = false ↔ f = "".
Proof.
  unfold truthy_str. rewrite bool_decide_eq_false.
  split; [|intros -> Hne; by apply Hne].
  intros H. destruct (decide (f = "")) as [|Hne]; [done | by destruct (H Hne)].
Qed.

(** A round that ends with nothing selected has seen every update fail. *)
Lemma round_for_none score candidate cands b b' :
  round_for score candidate cands (b, None) = (b', None) →
  b' = b ∧
  ∀ f, f ∈ cands →
       update b (candidate f) (score (candidate f)) = (b, false).
Proof.
  intros H.
  destruct (round_for_cases score candidate cands (b, None))
    as [[E Hno] | (g & _ & E & _)]; rewrite E in H; [|discriminate].
  split; [congruence|]. intros f Hf. apply update_keeps, (Hno f Hf).
Qed.

(** C4 (as amended).  In a round of the forward search, let [f] be a
    feature whose subset improves on the incumbent, such that every feature
    iterated before [f] scores strictly worse than [f] (or NaN) and no
    feature iterated after [f] scores strictly better: [f] is the first, in
    iteration order, of the features tied for the round's best score.  Then
    the round selects [f] and leaves the tracker on [f]'s subset; and when
    [f] has a non-empty name the loop appends it to the current subset. *)
Theorem forward_first_tied_selected (score : list Feature → Score)
    (order : list Feature → list Feature) (all_features : list Feature)
    (st : Search) (pre post : list Feature) (f : Feature) :
  order (remaining all_features (current_features st)) = pre ++ f :: post →
  SFltb (score (current_features st ++ [f])) (mse (best st)) = true →
  (∀ g, g ∈ pre →
        SFleb (score (current_features st ++ [g]))
              (score (current_features st ++ [f])) = false) →
  (∀ g, g ∈ post →
        SFltb (score (current_features st ++ [g]))
              (score (current_features st ++ [f])) = false) →
  forward_round score order all_features (current_features st) (best st)
    = (mkSolution (current_features st ++ [f])
                  (score (current_features st ++ [f])), Some f) ∧
  (current_features st ≠ all_features → truthy_str f = true →
   ∀ fuel,
     forward_while score order all_features (S fuel) st
     = forward_while score order all_features fuel
         (mkSearch (current_features st ++ [f])
            (mkSolution (current_features st ++ [f])
                        (score (current_features st ++ [f])))
            (S (rounds st)) (picked st ++ [f]))).
Proof.
  intros Horder Himproves Hpre Hpost.
  assert (forward_round score order all_features (current_features st) (best st)
    = (mkSolution (current_features st ++ [f])
                  (score (current_features st ++ [f])), Some f)) as Hround.
  { rewrite forward_round_shape, Horder.
    by apply (round_for_winner score (λ f, current_features st ++ [f])). }
  split; [exact Hround|].
  intros Hguard Htruthy fuel. rewrite (forward_while_unfold _ _ _ (S fuel)).
  rewrite decide_False by done. cbv zeta. rewrite Hround. simpl.
  by rewrite Htruthy.
Qed.

(** Two features tie for the best score of the first round; the one
    iterated first, ["A"], is selected and appended. *)
Lemma forward_first_tied_selected_witness :
  forward_round tie_score id ["A"; "B"] [] (Solution_init (score_of_Z 10))
    = (mkSolution ["A"] (score_of_Z 5), Some "A") ∧
  forward_while tie_score id ["A"; "B"] 2 (forward_start (score_of_Z 10))
    = forward_while tie_score id ["A"; "B"] 1
        (mkSearch ["A"] (mkSolution ["A"] (score_of_Z 5)) 1 ["A"]).
Proof.
  destruct (forward_first_tied_selected tie_score id ["A"; "B"]
              (forward_start (score_of_Z 10)) [] ["B"] "A") as [Hround Hloop].
  - reflexivity.
  - reflexivity.
  - intros g Hg. by apply elem_of_nil in Hg.
  - intros g Hg. reflexivity.
  - split; [exact Hround|]. apply (Hloop ltac:(done) eq_refl 1).
Defined.

(** C4, as stated, fails: ["A"] and ["B"] tie for the best score of the
    first round, both improve the baseline, ["B"] is the one evaluated
    last, and the round selects ["A"]; the search ends with ["A"] alone. *)
Lemma forward_last_tied_not_selected :
  id (remaining ["A"; "B"] []) = ["A"; "B"] ∧
  SFeqb (tie_score ["A"]) (tie_score ["B"]) = true ∧
  SFltb (tie_score ["A"]) (score_of_Z 10) = true ∧
  SFltb (tie_score ["B"]) (score_of_Z 10) = true ∧
  (forward_round tie_score id ["A"; "B"] []
     (Solution_init (score_of_Z 10))).2 = Some "A" ∧
  forward tie_score id ["A"; "B"] 3 (score_of_Z 10)
    = Some (mkSearch ["A"] (mkSolution ["A"] (score_of_Z 5)) 2 ["A"]).
Proof. vm_compute. repeat split. Qed.

(** The backward tracker starts on the full universe with its score
    whenever that score is truthy, i.e. is not a zero. *)
Lemma backward_start_truthy score (all_features : list Feature) baseline :
  all_features ≠ [] → truthy_float (score all_features) = true →
  best (backward_start score all_features baseline)
    = mkSolution all_features (score all_features).
Proof.
  intros Hne Hm. unfold backward_start, Solution_init_backward. simpl.
  rewrite Hm. by destruct all_features.
Qed.

(** When the full model scores [0.0], [if features and mse] takes the
    [else] branch. *)
Lemma backward_start_zero score (all_features : list Feature) baseline :
  truthy_float (score all_features) = false →
  best (backward_start score all_features baseline) = mkSolution [] baseline.
Proof.
  intros Hm. unfold backward_start, Solution_init_backward. simpl.
  rewrite Hm. by rewrite andb_false_r.
Qed.

(** C5 (the code on a perfect fit).  With a one-feature universe whose
    full model has a mean squared error of exactly [0.0], the backward
    tracker starts on the empty subset with the no-predictor baseline, not
    on the full universe with its score. *)
Theorem backward_start_perfect_fit (baseline : Score) :
  best (backward_start perfect_score ["cylinders"] baseline)
    = mkSolution [] baseline ∧
  mkSolution [] baseline
    ≠ mkSolution ["cylinders"] (perfect_score ["cylinders"]).
Proof. split; [reflexivity | discriminate]. Qed.

(** C7 (the code on an out-of-order selection).  Universe ["A"; "B"]; the oracle
    makes the search take ["B"] in the first round and ["A"] in the second.
    The list [["B"; "A"]] differs from [["A"; "B"]], so the guard lets the
    body run a third time, over an empty set of candidates: two rounds are
    not enough for the loop to stop, and it stops after three. *)
Theorem forward_third_round :
  forward late_first_score id ["A"; "B"] 2 (score_of_Z 10) = None ∧
  forward late_first_score id ["A"; "B"] 3 (score_of_Z 10)
    = Some (mkSearch ["B"; "A"] (mkSolution ["B"; "A"] (score_of_Z 1))
              3 ["B"; "A"]).
Proof. vm_compute. split; reflexivity. Qed.

(** C8.  When a stepwise search has stopped, running its round once more
    from the state it stopped in (same current subset, hence same
    candidates, same oracle) leaves the tracker as it is and selects
    nothing: every [update] call of that round returns [False]. *)
Theorem converged_round_idempotent (score : list Feature → Score)
    (order : list Feature → list Feature) (all_features : list Feature) :
  (∀ l, order l ≡ₚ l) →
  (∀ fuel st st',
     forward_while score order all_features fuel st = Some st' →
     forward_round score order all_features (current_features st') (best st')
       = (best st', None) ∧
     ∀ f, f ∈ order (remaining all_features (current_features st')) →
          update (best st') (current_features st' ++ [f])
                 (score (current_features st' ++ [f])) = (best st', false)) ∧
  (∀ fuel st st',
     backward_while score fuel st = Some st' →
     backward_round score (current_features st') (best st')
       = (best st', None) ∧
     ∀ f, f ∈ current_features st' →
          update (best st') (filter (λ g, g ≠ f) (current_features st'))
                 (score (filter (λ g, g ≠ f) (current_features st')))
            = (best st', false)).
Proof.
  intros Hperm. split; intros fuel st st' Hrun.
  - pose proof (forward_while_settled _ _ _ Hperm _ _ _ Hrun) as Hagain.
    split; [exact Hagain|]. rewrite forward_round_shape in Hagain.
    by apply round_for_none in Hagain as [_ Hno].
  - pose proof (backward_while_settled _ _ _ _ Hrun) as Hagain.
    split; [exact Hagain|]. rewrite backward_round_shape in Hagain.
    by apply round_for_none in Hagain as [_ Hno].
Qed.

Lemma converged_round_idempotent_witness :
  forward tie_score id ["A"; "B"] 3 (score_of_Z 10)
    = Some (mkSearch ["A"] (mkSolution ["A"] (score_of_Z 5)) 2 ["A"]) ∧
  forward_round tie_score id ["A"; "B"] ["A"] (mkSolution ["A"] (score_of_Z 5))
    = (mkSolution ["A"] (score_of_Z 5), None) ∧
  backward unnamed_best_score 2 ["x"; "y"] (score_of_Z 10)
    = Some (mkSearch ["x"] (mkSolution ["x"] (score_of_Z 2)) 2 ["y"]) ∧
  backward_round unnamed_best_score ["x"] (mkSolution ["x"] (score_of_Z 2))
    = (mkSolution ["x"] (score_of_Z 2), None).
Proof.
  destruct (converged_round_idempotent tie_score id ["A"; "B"]
              (λ l, reflexivity l)) as [Hfwd _].
  destruct (converged_round_idempotent unnamed_best_score id ["x"; "y"]
              (λ l, reflexivity l)) as [_ Hbwd].
  assert (forward tie_score id ["A"; "B"] 3 (score_of_Z 10)
    = Some (mkSearch ["A"] (mkSolution ["A"] (score_of_Z 5)) 2 ["A"])) as E1
    by (vm_compute; reflexivity).
  assert (backward unnamed_best_score 2 ["x"; "y"] (score_of_Z 10)
    = Some (mkSearch ["x"] (mkSolution ["x"] (score_of_Z 2)) 2 ["y"])) as E2
    by (vm_compute; reflexivity).
  split; [exact E1|]. split; [exact (proj1 (Hfwd _ _ _ E1))|].
  split; [exact E2|]. exact (proj1 (Hbwd _ _ _ E2)).
Defined.

(** *** Two runs on the same inputs *)

Section TwoRuns.
Variables score1 score2 : list Feature → Score.
Variables order1 order2 : list Feature → list Feature.
Hypothesis same_score : ∀ subset, score1 subset = score2 subset.
Hypothesis same_order : ∀ l, order1 l = order2 l.

Lemma round_for_same candidate cands r :
  round_for score1 candidate cands r = round_for score2 candidate cands r.
Proof.
  revert r. induction cands as [|f cands IH]; intros r; simpl; [done|].
  rewrite same_score. destruct (update _ _ _). apply IH.
Qed.

Lemma forward_round_same all_features current b :
  forward_round score1 order1 all_features current b
    = forward_round score2 order2 all_features current b.
Proof. rewrite !forward_round_shape, same_order. apply round_for_same. Qed.

Lemma backward_round_same current b :
  backward_round score1 current b = backward_round score2 current b.
Proof. rewrite !backward_round_shape. apply round_for_same. Qed.

Lemma forward_while_same all_features fuel st :
  forward_while score1 order1 all_features fuel st
    = forward_while score2 order2 all_features fuel st.
Proof.
  revert st. induction fuel as [|fuel IH]; intros st;
    rewrite !forward_while_unfold; [done|].
  cbv zeta. rewrite forward_round_same. case_decide; [done|].
  destruct (forward_round score2 order2 _ _ _) as [b [f|]]; simpl; [|done].
  by rewrite IH.
Qed.

Lemma backward_while_same fuel st :
  backward_while score1 fuel st = backward_while score2 fuel st.
Proof.
  revert st. induction fuel as [|fuel IH]; intros st;
    rewrite !backward_while_unfold; [done|].
  cbv zeta. rewrite backward_round_same. case_decide; [done|].
  destruct (backward_round score2 _ _) as [b [f|]]; simpl; [|done].
  by rewrite IH.
Qed.
End TwoRuns.

(** C9.  Two runs of a stepwise search on the same universe and baseline,
    with oracles that give the same score to every subset and set
    iterations that list every set in the same order, both stop, and they
    stop in the same state: same sequence of committed features ([picked]),
    same current subset, same tracker, same number of rounds.  This holds
    for the forward and for the backward search. *)
Theorem stepwise_deterministic (score1 score2 : list Feature → Score)
    (order1 order2 : list Feature → list Feature)
    (all_features : list Feature) (baseline : Score) :
  (∀ l, order1 l ≡ₚ l) →
  (∀ subset, score1 subset = score2 subset) →
  (∀ l, order1 l = order2 l) →
  (∃ st, forward score1 order1 all_features (S (length all_features)) baseline
           = Some st ∧
         forward score2 order2 all_features (S (length all_features)) baseline
           = Some st) ∧
  (∃ st, backward score1 (length all_features) all_features baseline = Some st ∧
         backward score2 (length all_features) all_features baseline = Some st).
Proof.
  intros Hperm Hscore Horder. split.
  - destruct (forward_terminates score1 order1 all_features Hperm baseline)
      as (st & Hst & _).
    exists st. split; [exact Hst|]. rewrite <-Hst. unfold forward.
    symmetry. by apply forward_while_same.
  - destruct (backward_terminates score1 all_features baseline)
      as (st & Hst & _).
    exists st. split; [exact Hst|]. rewrite <-Hst. unfold backward.
    unfold backward_start. rewrite <-Hscore.
    symmetry. by apply backward_while_same.
Qed.

Lemma stepwise_deterministic_witness :
  (∃ st, forward toy_score id ["A"; "B"; "C"] 4 (score_of_Z 10) = Some st ∧
         forward (λ s, score_of_Z (10 - Z.of_nat (length s))) (λ l, l)
           ["A"; "B"; "C"] 4 (score_of_Z 10) = Some st) ∧
  (∃ st, backward toy_score 3 ["A"; "B"; "C"] (score_of_Z 10) = Some st ∧
         backward (λ s, score_of_Z (10 - Z.of_nat (length s)))
           3 ["A"; "B"; "C"] (score_of_Z 10) = Some st).
Proof.
  apply (stepwise_deterministic toy_score
           (λ s, score_of_Z (10 - Z.of_nat (length s))) id (λ l, l)
           ["A"; "B"; "C"] (score_of_Z 10)).
  - intros l. reflexivity.
  - intros s. reflexivity.
  - intros l. reflexivity.
Defined.

(** C10.  If the feature a round leaves in [selected_feature]
    ([removed_feature]) is falsy, i.e. is the empty string, the loop stops
    at the end of that round: the current subset is the one the round
    started with, although the tracker was strictly improved during the
    round and now holds the subset built with that feature.  This holds for
    the forward and for the backward loop. *)
Theorem falsy_feature_stops (score : list Feature → Score)
    (order : list Feature → list Feature) (all_features : list Feature) :
  (∀ fuel st b' f,
     current_features st ≠ all_features →
     forward_round score order all_features (current_features st) (best st)
       = (b', Some f) →
     truthy_str f = false →
     f = "" ∧
     forward_while score order all_features (S fuel) st
       = Some (mkSearch (current_features st) b' (S (rounds st)) (picked st)) ∧
     SFltb (mse b') (mse (best st)) = true ∧
     b' = mkSolution (current_features st ++ [f])
                     (score (current_features st ++ [f]))) ∧
  (∀ fuel st b' f,
     current_features st ≠ [] →
     backward_round score (current_features st) (best st) = (b', Some f) →
     truthy_str f = false →
     f = "" ∧
     backward_while score (S fuel) st
       = Some (mkSearch (current_features st) b' (S (rounds st)) (picked st)) ∧
     SFltb (mse b') (mse (best st)) = true ∧
     b' = mkSolution (filter (λ g, g ≠ f) (current_features st))
                     (score (filter (λ g, g ≠ f) (current_features st)))).
Proof.
  split; intros fuel st b' f Hguard Hround Hfalsy.
  - split; [by apply truthy_str_false|]. split.
    + rewrite forward_while_unfold, decide_False by done.
      cbv zeta. rewrite Hround. simpl. by rewrite Hfalsy.
    + rewrite forward_round_shape in Hround.
      by apply round_for_selected in Hround as (_ & ? & ?).
  - split; [by apply truthy_str_false|]. split.
    + rewrite backward_while_unfold, decide_False
        by (by destruct (current_features st)).
      cbv zeta. rewrite Hround. simpl. by rewrite Hfalsy.
    + apply backward_round_selected in Hround as (_ & ? & ?). done.
Qed.

Lemma falsy_feature_stops_witness :
  forward unnamed_best_score id ["x"; ""] 3 (score_of_Z 10)
    = Some (mkSearch [] (mkSolution [""] (score_of_Z 1)) 1 []) ∧
  backward unnamed_worst_score 2 ["x"; ""] (score_of_Z 10)
    = Some (mkSearch ["x"; ""] (mkSolution ["x"] (score_of_Z 2)) 1 []).
Proof.
  destruct (falsy_feature_stops unnamed_best_score id ["x"; ""])
    as [Hfwd _].
  destruct (falsy_feature_stops unnamed_worst_score id ["x"; ""])
    as [_ Hbwd].
  split.
  - destruct (Hfwd 2 (forward_start (score_of_Z 10))
                (mkSolution [""] (score_of_Z 1)) "") as (_ & Hstop & _);
      [discriminate | vm_compute; reflexivity | reflexivity | exact Hstop].
  - destruct (Hbwd 1 (backward_start unnamed_worst_score ["x"; ""] (score_of_Z 10))
                (mkSolution ["x"] (score_of_Z 2)) "") as (_ & Hstop & _);
      [discriminate | vm_compute; reflexivity | reflexivity | exact Hstop].
Defined.

(** ** The worked examples *)

(** Under the toy oracle every addition improves the score: the forward
    search takes the three features and ends on the full universe with
    score 7, in three rounds. *)
Example forward_worked_example :
  forward toy_score id ["A"; "B"; "C"] 4 (score_of_Z 10)
    = Some (mkSearch ["A"; "B"; "C"]
              (mkSolution ["A"; "B"; "C"] (score_of_Z 7)) 3 ["A"; "B"; "C"]).
Proof. vm_compute. reflexivity. Qed.

(** Under the same oracle every removal worsens the score: the backward
    search stops after one round, on the full universe. *)
Example backward_worked_example :
  backward toy_score 3 ["A"; "B"; "C"] (score_of_Z 10)
    = Some (mkSearch ["A"; "B"; "C"]
              (mkSolution ["A"; "B"; "C"] (score_of_Z 7)) 1 []).
Proof. vm_compute. reflexivity. Qed.

(** A universe of one feature: one oracle call; the singleton is returned
    when it beats the baseline, the empty subset with the baseline when it
    does not. *)
Example exhaustive_singleton_better :
  exhaustive toy_score ["A"] (score_of_Z 10)
    = mkEnumeration (mkSolution ["A"] (score_of_Z 9)) [["A"]].
Proof. vm_compute. reflexivity. Qed.

Example exhaustive_singleton_worse :
  exhaustive toy_score ["A"] (score_of_Z 4)
    = mkEnumeration (mkSolution [] (score_of_Z 4)) [["A"]].
Proof. vm_compute. reflexivity. Qed.

(* ===================================================================== *)
(** * Part III: further properties of the code *)
(* ===================================================================== *)

(** ** Column lists *)

Lemma elem_of_feature_columns columns label col :
  col ∈ feature_columns columns label ↔ col ∈ columns ∧ col ≠ label.
Proof. unfold feature_columns. rewrite list_elem_of_filter. tauto. Qed.

Lemma elem_of_get_model (features : list Feature) col :
  col ∈ transformed_columns (get_model features) ↔ col ∈ features.
Proof.
  unfold transformed_columns, get_model. csimpl. rewrite app_nil_r.
  rewrite elem_of_app, list_elem_of_filter. case_decide as Horigin.
  - rewrite list_elem_of_singleton. split; [intros [->|[_ ?]]; done|].
    intros Hcol. destruct (decide (col = "origin")); auto.
  - rewrite elem_of_nil. split; [intros [[]|[_ ?]]; done|].
    intros Hcol. right. split; [|done]. by intros ->.
Qed.

Lemma get_model_Permutation (features : list Feature) :
  NoDup features → transformed_columns (get_model features) ≡ₚ features.
Proof.
  intros Hnd. apply NoDup_Permutation; [|done|apply elem_of_get_model].
  unfold transformed_columns, get_model. csimpl. rewrite app_nil_r.
  apply NoDup_app. split_and!.
  - case_decide; [apply NoDup_singleton | apply NoDup_nil_2].
  - intros col Hcat [Hne _]%list_elem_of_filter. apply Hne.
    case_decide; [by apply list_elem_of_singleton in Hcat|].
    by apply elem_of_nil in Hcat.
  - by apply NoDup_filter.
Qed.

(** X1.  The model built for a subset of the data's columns: the two column
    lists [get_model] gives the [ColumnTransformer] cover the columns of the
    subset and no other (nothing is dropped, nothing foreign is asked for),
    a column is never in both lists, and the categorical list is
    [['origin']] exactly when the subset has that column.  Applied to the
    feature list read off the data frame, the label is in neither list. *)
Theorem get_model_partition (columns features : list Feature)
    (label : Feature) :
  (∀ col, col ∈ transformed_columns (get_model features) ↔ col ∈ features) ∧
  (∀ cat num, get_model features = [("categorical", cat); ("numerical", num)] →
     (∀ col, col ∈ cat → col ∉ num) ∧
     (cat = ["origin"] ↔ "origin" ∈ features) ∧
     num `sublist_of` features) ∧
  (NoDup features → transformed_columns (get_model features) ≡ₚ features) ∧
  (∀ col, col ∈ transformed_columns (get_model (feature_columns columns label))
          ↔ col ∈ columns ∧ col ≠ label).
Proof.
  split_and!.
  - apply elem_of_get_model.
  - intros cat num [= <- <-]. split_and!.
    + intros col Hcat [Hne _]%list_elem_of_filter. apply Hne.
      case_decide; [by apply list_elem_of_singleton in Hcat|].
      by apply elem_of_nil in Hcat.
    + case_decide; split; done.
    + apply sublist_filter.
  - apply get_model_Permutation.
  - intros col. by rewrite elem_of_get_model, elem_of_feature_columns.
Qed.




(** ** More on the order of scores *)

Lemma SFleb_ltb_trans (a b c : Score) :
  SFleb a b = true → SFltb b c = true → SFltb a c = true.
Proof.
  unfold SFltb, SFleb, SFcompare.
  float_cases a; float_cases b; float_cases c;
    try discriminate; try reflexivity; intros H1 H2; cmp_solve.
Qed.

Lemma SFleb_antisym (a b : Score) :
  SFleb a b = true → SFleb b a = true → SFeqb a b = true.
Proof.
  unfold SFeqb, SFleb, SFcompare.
  float_cases a; float_cases b;
    try discriminate; try reflexivity; intros H1 H2; cmp_solve.
Qed.

(** ** More on sequences of updates *)

(** A sequence of updates leaves the tracker as it was or strictly lower. *)
Lemma updates_mse_chain (self : Solution) cs :
  updates self cs = self ∨ SFltb (mse (updates self cs)) (mse self) = true.
Proof.
  induction cs as [|c cs IH] using rev_ind; [by left|].
  rewrite updates_snoc.
  destruct (update_mse_cases (updates self cs) c.1 c.2) as [[Hlt ->]|[_ ->]];
    simpl; [|done].
  right. destruct IH as [<-|IH]; [done|]. exact (SFltb_trans _ _ _ Hlt IH).
Qed.

(** Where the tracker a sequence of updates ends on comes from: nowhere
    (no candidate improved), or a candidate [c] that improved on the
    tracker as it stood before it, with no later candidate below [c]. *)
Lemma updates_cases (self : Solution) cs :
  (updates self cs = self ∧ ∀ c, c ∈ cs → SFltb c.2 (mse self) = false) ∨
  (∃ pre c post,
     cs = pre ++ c :: post ∧ updates self cs = mkSolution c.1 c.2 ∧
     SFltb c.2 (mse (updates self pre)) = true ∧
     ∀ d, d ∈ post → SFltb d.2 c.2 = false).
Proof.
  induction cs as [|c cs IH] using rev_ind.
  - left. split; [done|]. intros c Hc. by apply elem_of_nil in Hc.
  - rewrite updates_snoc.
    destruct (update_mse_cases (updates self cs) c.1 c.2) as [[Hlt E]|[Hge E]];
      rewrite E; simpl.
    + right. exists cs, c, []. split_and!; [done | done | done |].
      intros d Hd. by apply elem_of_nil in Hd.
    + destruct IH as [[Hself Hno] | (pre & c0 & post & -> & Hbest & Hlt & Hpost)].
      * left. split; [done|]. rewrite Hself in Hge.
        intros d [Hd | ->%list_elem_of_singleton]%elem_of_app; auto.
      * right. exists pre, c0, (post ++ [c]). rewrite Hbest in Hge.
        split_and!; [by rewrite <-app_assoc | done | done |].
        intros d [Hd | ->%list_elem_of_singleton]%elem_of_app; auto.
Qed.

(** X4.  The score a tracker ends on does not depend on the order in which
    the candidates are fed to it: started at a score that is a number, two
    runs over rearrangements of the same candidates end on scores that
    compare equal.  (The subset stored may differ when candidates tie, and
    so may the sign of a zero.) *)
Theorem updates_order_irrelevant (self : Solution)
    (cs1 cs2 : list (list Feature * Score)) :
  is_nan (mse self) = false → cs1 ≡ₚ cs2 →
  SFeqb (mse (updates self cs1)) (mse (updates self cs2)) = true.
Proof.
  intros Hs Hperm.
  assert (∀ cs cs', cs ≡ₚ cs' →
            SFleb (mse (updates self cs)) (mse (updates self cs')) = true)
    as Hle.
  { intros cs cs' Hp. apply SFltb_false_leb; auto using updates_not_nan.
    apply updates_mse_lower. rewrite Hp. apply updates_mse_seen. }
  apply SFleb_antisym; apply Hle; [done | by symmetry].
Qed.

Lemma updates_order_irrelevant_witness :
  SFeqb (mse (updates (Solution_init (score_of_Z 10)) tracker_candidates))
        (mse (updates (Solution_init (score_of_Z 10))
                (reverse tracker_candidates))) = true ∧
  features (updates (Solution_init (score_of_Z 10)) tracker_candidates) = ["c"] ∧
  features (updates (Solution_init (score_of_Z 10))
              (reverse tracker_candidates)) = ["d"].
Proof.
  split; [|split; reflexivity].
  apply updates_order_irrelevant; [reflexivity|].
  symmetry. apply reverse_Permutation.
Defined.

(** ** The result of the complete enumeration *)

Lemma scored_subsets_seen (score : list Feature → Score)
    (subsets : list (list Feature)) (s : list Feature) :
  s ∈ subsets → score s ∈ ((λ s, (s, score s)) <$> subsets).*2.
Proof.
  intros Hs. rewrite <-list_fmap_compose.
  apply (list_elem_of_fmap_2 (λ s, score s)), Hs.
Qed.

(** The enumeration is sorted by size. *)
Lemma all_related_sorted {A} (R : relation A) (l : list A) :
  (∀ x y, x ∈ l → y ∈ l → R x y) → StronglySorted R l.
Proof.
  induction l as [|a l IH]; intros H; constructor.
  - apply IH. intros x y Hx Hy. apply H; by right.
  - apply Forall_forall. intros y Hy. apply H; [left | by right].
Qed.

Lemma sizes_sorted {A} (pool : list A) (a n : nat) :
  StronglySorted (λ s t, length s ≤ length t)
    (seq a n ≫= combinations pool) ∧
  ∀ t, t ∈ seq a n ≫= combinations pool → a ≤ length t.
Proof.
  revert a. induction n as [|n IH]; intros a; csimpl.
  - split; [constructor|]. intros t Ht. by apply elem_of_nil in Ht.
  - destruct (IH (S a)) as [Hsorted Hlen]. split.
    + apply StronglySorted_app_2; [| |done].
      * intros x y [_ <-]%elem_of_combinations Hy%Hlen. lia.
      * apply all_related_sorted.
        intros x y [_ ->]%elem_of_combinations [_ ->]%elem_of_combinations.
        done.
    + intros t [[_ <-]%elem_of_combinations | Ht%Hlen]%elem_of_app; lia.
Qed.

Lemma subsets_by_size_later {A} (pool : list A) pre s post t :
  subsets_by_size pool = pre ++ s :: post →
  t ∈ s :: post → length s ≤ length t.
Proof.
  intros E [->|Ht]%elem_of_cons; [done|].
  destruct (sizes_sorted pool 1 (length pool)) as [Hsorted _].
  fold (subsets_by_size pool) in Hsorted.
  rewrite E, cons_middle, (assoc_L (++) pre [s] post) in Hsorted.
  eapply (StronglySorted_app_1_elem_of _ _ _ s t Hsorted); [|done].
  apply elem_of_app. right. left.
Qed.

(** X5.  The tracker the enumeration returns is a global optimum: no
    non-empty subset of the universe scores strictly below it, and neither
    does the baseline.  It is the baseline tracker with the empty subset,
    or a non-empty subset of the universe (in universe order) together
    with the score the oracle gives to that very subset. *)
Theorem exhaustive_optimal (score : list Feature → Score)
    (all_features : list Feature) (baseline : Score) :
  (∀ s, s ≠ [] → s `sublist_of` all_features →
        SFltb (score s) (mse (e_best (exhaustive score all_features baseline)))
          = false) ∧
  SFltb baseline (mse (e_best (exhaustive score all_features baseline)))
    = false ∧
  (e_best (exhaustive score all_features baseline) = Solution_init baseline ∨
   ∃ s, s ≠ [] ∧ s `sublist_of` all_features ∧
        SFltb (score s) baseline = true ∧
        e_best (exhaustive score all_features baseline)
          = mkSolution s (score s)).
Proof.
  rewrite exhaustive_spec. simpl. split_and!.
  - intros s Hne Hs. apply updates_mse_lower. right.
    apply scored_subsets_seen. by apply elem_of_subsets_by_size.
  - apply updates_mse_lower. left.
  - destruct (updates_cases (Solution_init baseline)
                ((λ s, (s, score s)) <$> subsets_by_size all_features))
      as [[E _] | (pre & c & post & Hsplit & E & Hlt & _)]; [by left|].
    right.
    assert (c ∈ (λ s, (s, score s)) <$> subsets_by_size all_features) as Hc
      by (rewrite Hsplit, elem_of_app; right; left).
    apply list_elem_of_fmap in Hc as (s & -> & [Hne Hs]%elem_of_subsets_by_size).
    exists s. split_and!; [done | done | | done]. simpl in Hlt.
    destruct (updates_mse_chain (Solution_init baseline) pre) as [Hpre|Hpre].
    + by rewrite Hpre in Hlt.
    + exact (SFltb_trans _ _ _ Hlt Hpre).
Qed.

(** X6.  Among subsets of equal score the enumeration keeps the first it
    meets, and it meets small subsets first: when it returns a subset [s],
    every non-empty subset of the universe with fewer features than [s]
    scores strictly worse than [s] (or NaN).  The subset returned is a
    smallest one among those of minimal score. *)
Theorem exhaustive_prefers_small (score : list Feature → Score)
    (all_features : list Feature) (baseline : Score)
    (s t : list Feature) :
  features (e_best (exhaustive score all_features baseline)) = s →
  s ≠ [] →
  t ≠ [] → t `sublist_of` all_features → length t < length s →
  SFleb (score t) (score s) = false.
Proof.
  rewrite exhaustive_spec. simpl. intros Hs Hne Htne Ht Hlen.
  destruct (updates_cases (Solution_init baseline)
              ((λ s, (s, score s)) <$> subsets_by_size all_features))
    as [[E _] | (pre & c & post & Hsplit & E & Hlt & _)];
    rewrite E in Hs; [by subst s|]. simpl in Hs.
  apply fmap_app_inv in Hsplit as (pre' & rest & -> & Hrest & Hsubsets).
  symmetry in Hrest.
  apply fmap_cons_inv in Hrest as (s' & post' & -> & -> & ->).
  simpl in *. subst s'.
  assert (t ∈ pre') as Hpre.
  { assert (t ∈ subsets_by_size all_features) as Hin
      by (by apply elem_of_subsets_by_size).
    rewrite Hsubsets in Hin. apply elem_of_app in Hin as [?|Hin]; [done|].
    pose proof (subsets_by_size_later _ _ _ _ _ Hsubsets Hin). lia. }
  destruct (SFleb (score t) (score s)) eqn:Hle; [|done].
  pose proof (SFleb_ltb_trans _ _ _ Hle Hlt) as Hbelow.
  rewrite updates_mse_lower in Hbelow; [done|].
  right. by apply scored_subsets_seen.
Qed.

Lemma exhaustive_prefers_small_witness :
  features (e_best (exhaustive set_score ["A"; "B"; "C"] (score_of_Z 10)))
    = ["A"; "B"] ∧
  SFleb (set_score ["A"]) (set_score ["A"; "B"]) = false ∧
  SFeqb (set_score ["A"; "B"; "C"]) (set_score ["A"; "B"]) = true.
Proof.
  assert (features (e_best (exhaustive set_score ["A"; "B"; "C"]
                              (score_of_Z 10))) = ["A"; "B"]) as E
    by (vm_compute; reflexivity).
  split; [exact E|]. split; [|reflexivity].
  apply (exhaustive_prefers_small set_score ["A"; "B"; "C"] (score_of_Z 10)
           ["A"; "B"] ["A"] E); [done | done | | simpl; lia].
  apply sublist_skip, sublist_nil_l.
Defined.

(** ** What the forward search returns *)

Section ForwardResult.
Variable score : list Feature → Score.
Variable order : list Feature → list Feature.
Variable all_features : list Feature.
Variable baseline : Score.
Hypothesis order_perm : ∀ l, order l ≡ₚ l.

Lemma forward_start_inv :
  forward_inv all_features (forward_start baseline) ∧
  forward_tracker_inv score baseline (forward_start baseline).
Proof.
  split; [|by left]. unfold forward_inv. simpl.
  split_and!; try done; [constructor | by intros f ?%elem_of_nil | by intros ?%elem_of_nil].
Qed.

Lemma forward_while_inv fuel st st' :
  forward_inv all_features st → forward_tracker_inv score baseline st →
  forward_while score order all_features fuel st = Some st' →
  NoDup (current_features st') ∧
  (∀ f, f ∈ current_features st' → f ∈ all_features) ∧
  ("" ∉ current_features st') ∧
  picked st' = current_features st' ∧
  (rounds st' = length (current_features st') ∨
   rounds st' = S (length (current_features st'))) ∧
  (forward_tracker_inv score baseline st' ∨
   ("" ∈ all_features ∧
    best st' = mkSolution (current_features st' ++ [""])
                          (score (current_features st' ++ [""])))).
Proof.
  revert st. induction fuel as [|fuel IH];
    intros st (Hnd & Hsub & Hne & Hpicked & Hrounds) Htracker;
    rewrite forward_while_unfold; case_decide as Hguard; try done;
    try (intros [= <-]; split_and!; auto).
  cbv zeta.
  destruct (forward_round score order all_features (current_features st)
              (best st)) as [b' [f|]] eqn:E; simpl.
  - apply forward_round_selected in E as (Hf & -> & _); [|done].
    apply list_elem_of_difference in Hf as [Hf Hfresh].
    rewrite elem_of_remove_dups in Hf.
    destruct (truthy_str f) eqn:Hf_truthy.
    + apply IH.
      * unfold forward_inv. simpl. split_and!.
        -- apply NoDup_app. split_and!; [done | | apply NoDup_singleton].
           by intros g Hg ->%list_elem_of_singleton.
        -- intros g [Hg | ->%list_elem_of_singleton]%elem_of_app; auto.
        -- intros [? | Heq%list_elem_of_singleton]%elem_of_app; [done|].
           subst f. by rewrite (proj2 (truthy_str_false "") eq_refl) in Hf_truthy.
        -- by rewrite Hpicked.
        -- rewrite length_app. simpl. lia.
      * right. simpl. split; [|done]. by destruct (current_features st).
    + apply truthy_str_false in Hf_truthy as ->.
      intros [= <-]. simpl. split_and!; auto.
  - rewrite forward_round_shape in E.
    apply round_for_none in E as [-> _].
    intros [= <-]. simpl. split_and!; auto.
Qed.

Lemma forward_while_chain fuel st st' :
  forward_while score order all_features fuel st = Some st' →
  best st' = best st ∨ SFltb (mse (best st')) (mse (best st)) = true.
Proof.
  revert st. induction fuel as [|fuel IH]; intros st;
    rewrite forward_while_unfold; case_decide as Hguard; try done;
    try (intros [= <-]; by left).
  cbv zeta.
  assert ((forward_round score order all_features (current_features st)
             (best st)).1 = best st ∨
          SFltb (mse (forward_round score order all_features
                        (current_features st) (best st)).1)
                (mse (best st)) = true) as Hround.
  { rewrite forward_round_shape, round_for_best. apply updates_mse_chain. }
  destruct (forward_round score order all_features (current_features st)
              (best st)) as [b' [f|]]; simpl in *;
    [destruct (truthy_str f)|]; try (by intros [= <-]).
  intros [E|Hlt]%IH; simpl in *.
  - by rewrite E.
  - right. destruct Hround as [<-|Hround]; [done|].
    exact (SFltb_trans _ _ _ Hlt Hround).
Qed.
End ForwardResult.

Lemma forward_while_more_fuel score order all_features fuel fuel' st st' :
  forward_while score order all_features fuel st = Some st' →
  fuel ≤ fuel' →
  forward_while score order all_features fuel' st = Some st'.
Proof.
  revert st fuel'. induction fuel as [|fuel IH]; intros st fuel';
    rewrite !forward_while_unfold; case_decide; try done.
  intros Hrun Hle. destruct fuel' as [|fuel']; [lia|]. cbv zeta in *.
  destruct (forward_round score order all_features (current_features st)
              (best st)) as [b' [f|]]; simpl in *; [|done].
  destruct (truthy_str f); [|done]. apply IH; [done | lia].
Qed.

(** X7.  The forward search always stops, whatever the oracle: a fuel of
    [p + 1] loop bodies is never used up ([p] the length of the feature
    list), the result runs at most [p + 1] rounds, and giving the loop any
    other amount of fuel either runs out or gives the same result. *)
Theorem forward_stops (score : list Feature → Score)
    (order : list Feature → list Feature) (all_features : list Feature)
    (baseline : Score) :
  (∀ l, order l ≡ₚ l) →
  ∃ st,
    forward score order all_features (S (length all_features)) baseline
      = Some st ∧
    rounds st ≤ S (length all_features) ∧
    ∀ fuel st', forward score order all_features fuel baseline = Some st' →
                st' = st.
Proof.
  intros Hperm.
  destruct (forward_terminates score order all_features Hperm baseline)
    as (st & Hst & Hrounds).
  exists st. split_and!; [done | done |]. intros fuel st' Hst'.
  unfold forward in *.
  pose proof (forward_while_more_fuel _ _ _ _
                (fuel `max` S (length all_features)) _ _ Hst' ltac:(lia)) as E1.
  pose proof (forward_while_more_fuel _ _ _ _
                (fuel `max` S (length all_features)) _ _ Hst ltac:(lia)) as E2.
  congruence.
Qed.

Lemma forward_stops_witness :
  ∃ st, forward set_score id ["A"; "B"; "C"] 4 (score_of_Z 10) = Some st ∧
        rounds st ≤ 4 ∧
        ∀ fuel st', forward set_score id ["A"; "B"; "C"] fuel (score_of_Z 10)
                      = Some st' → st' = st.
Proof.
  apply (forward_stops set_score id ["A"; "B"; "C"] (score_of_Z 10)).
  intros l. reflexivity.
Defined.

(** X8.  What the forward search keeps as its current subset: the features
    it committed, in the order it committed them; they are distinct, they
    belong to the universe, none has an empty name, and there are at most
    [p] of them.  Each round but possibly the last committed one feature:
    the number of rounds is the size of the subset, or one more. *)
Theorem forward_subset_grows (score : list Feature → Score)
    (order : list Feature → list Feature) (all_features : list Feature)
    (baseline : Score) (fuel : nat) (st : Search) :
  (∀ l, order l ≡ₚ l) →
  forward score order all_features fuel baseline = Some st →
  picked st = current_features st ∧
  NoDup (current_features st) ∧
  (∀ f, f ∈ current_features st → f ∈ all_features ∧ f ≠ "") ∧
  length (current_features st) ≤ length all_features ∧
  (rounds st = length (current_features st) ∨
   rounds st = S (length (current_features st))).
Proof.
  intros Hperm Hrun.
  destruct (forward_start_inv score all_features baseline) as [Hinv Htr].
  destruct (forward_while_inv score order all_features baseline Hperm
              _ _ _ Hinv Htr Hrun) as (Hnd & Hsub & Hne & Hpicked & Hrounds & _).
  split_and!; [done | done | | | done].
  - intros f Hf. split; [auto|]. by intros ->.
  - apply submseteq_length, NoDup_submseteq; auto.
Qed.

Lemma forward_subset_grows_witness :
  forward set_score id ["A"; "B"; "C"] 4 (score_of_Z 10)
    = Some (mkSearch ["B"; "A"] (mkSolution ["B"; "A"] (score_of_Z 2))
              3 ["B"; "A"]) ∧
  NoDup ["B"; "A"] ∧ length ["B"; "A"] ≤ length ["A"; "B"; "C"].
Proof.
  assert (forward set_score id ["A"; "B"; "C"] 4 (score_of_Z 10)
    = Some (mkSearch ["B"; "A"] (mkSolution ["B"; "A"] (score_of_Z 2))
              3 ["B"; "A"])) as E by (vm_compute; reflexivity).
  split; [exact E|].
  destruct (forward_subset_grows set_score id ["A"; "B"; "C"] (score_of_Z 10)
              4 _ (λ l, reflexivity l) E) as (_ & Hnd & _ & Hlen & _).
  split; [exact Hnd | exact Hlen].
Defined.

(** X9.  What the forward search reports.  Either nothing was committed
    and the tracker is still the baseline with the empty subset; or the
    tracker holds exactly the current subset, in commit order, with the
    score the oracle gives it, strictly below the baseline; or, third
    case, the last round was won by a column with the empty name, and the
    tracker holds the current subset extended with that column, which the
    current subset does not have. *)
Theorem forward_reports_current (score : list Feature → Score)
    (order : list Feature → list Feature) (all_features : list Feature)
    (baseline : Score) (fuel : nat) (st : Search) :
  (∀ l, order l ≡ₚ l) →
  forward score order all_features fuel baseline = Some st →
  (best st = Solution_init baseline ∧ current_features st = []) ∨
  (current_features st ≠ [] ∧
   best st = mkSolution (current_features st) (score (current_features st)) ∧
   SFltb (score (current_features st)) baseline = true) ∨
  ("" ∈ all_features ∧
   best st = mkSolution (current_features st ++ [""])
                        (score (current_features st ++ [""])) ∧
   SFltb (score (current_features st ++ [""])) baseline = true).
Proof.
  intros Hperm Hrun.
  destruct (forward_start_inv score all_features baseline) as [Hinv Htr].
  destruct (forward_while_inv score order all_features baseline Hperm
              _ _ _ Hinv Htr Hrun) as (_ & _ & _ & _ & _ & Hbest).
  pose proof (forward_while_chain _ _ _ _ _ _ Hrun) as Hchain. simpl in Hchain.
  destruct Hbest as [[[E Hcur] | [Hcur E]] | [Hall E]].
  - by left.
  - right; left. split_and!; [done | done |].
    destruct Hchain as [Hsame|Hlt]; [|by rewrite E in Hlt].
    rewrite E in Hsame. injection Hsame as Hnil _. done.
  - right; right. split_and!; [done | done |].
    destruct Hchain as [Hsame|Hlt]; [|by rewrite E in Hlt].
    rewrite E in Hsame. injection Hsame as Hnil _.
    by destruct (current_features st).
Qed.

Lemma forward_reports_current_witness :
  (current_features (mkSearch ["B"; "A"] (mkSolution ["B"; "A"] (score_of_Z 2))
                       3 ["B"; "A"]) ≠ [] ∧
   SFltb (set_score ["B"; "A"]) (score_of_Z 10) = true) ∧
  forward unnamed_best_score id ["x"; ""] 3 (score_of_Z 10)
    = Some (mkSearch [] (mkSolution [""] (score_of_Z 1)) 1 []).
Proof.
  split; [|vm_compute; reflexivity].
  destruct (forward_reports_current set_score id ["A"; "B"; "C"]
              (score_of_Z 10) 4
              (mkSearch ["B"; "A"] (mkSolution ["B"; "A"] (score_of_Z 2))
                 3 ["B"; "A"]) (λ l, reflexivity l))
    as [[_ Hnil] | [(Hne & _ & Hlt) | (Hin & _)]].
  - vm_compute. reflexivity.
  - discriminate Hnil.
  - split; [exact Hne | exact Hlt].
  - exfalso. revert Hin. rewrite !elem_of_cons, elem_of_nil.
    intros [?|[?|[?|[]]]]; discriminate.
Defined.

(** ** What the backward search returns *)

Lemma list_remove_first_sublist (f : Feature) (l : list Feature) :
  list_remove_first f l `sublist_of` l.
Proof.
  induction l as [|x l IH]; simpl; [done|].
  case_decide; [by apply sublist_cons | by apply sublist_skip].
Qed.

Lemma filter_absent (f : Feature) (l : list Feature) :
  f ∉ l → filter (λ g, g ≠ f) l = l.
Proof.
  induction l as [|x l IH]; [done|]. intros [Hx Hl]%not_elem_of_cons.
  rewrite filter_cons_True by done. by rewrite IH.
Qed.

(** On a list without repetition, [remove] leaves the list the round
    scored. *)
Lemma list_remove_first_filter (f : Feature) (l : list Feature) :
  NoDup l → list_remove_first f l = filter (λ g, g ≠ f) l.
Proof.
  induction l as [|x l IH]; [done|]. intros [Hx Hl]%NoDup_cons. simpl.
  case_decide as Hf.
  - subst x. rewrite filter_cons_False by (by intros ?).
    by rewrite filter_absent.
  - rewrite filter_cons_True by (by intros ->). by rewrite IH.
Qed.

Section BackwardResult.
Variable score : list Feature → Score.
Variable all_features : list Feature.
Variable baseline : Score.

Lemma backward_start_inv :
  backward_inv all_features (backward_start score all_features baseline) ∧
  backward_tracker_inv score
    (best (backward_start score all_features baseline)) all_features
    (backward_start score all_features baseline).
Proof.
  split; [|by left]. unfold backward_inv. simpl.
  split_and!; [done | lia | by intros f ?%elem_of_nil | done].
Qed.

Lemma backward_while_inv fuel st st' :
  backward_inv all_features st →
  backward_while score fuel st = Some st' →
  current_features st' `sublist_of` all_features ∧
  length (current_features st') + length (picked st') = length all_features ∧
  (∀ f, f ∈ picked st' → f ∈ all_features ∧ f ≠ "") ∧
  (rounds st' = length (picked st') ∨ rounds st' = S (length (picked st'))).
Proof.
  revert st. induction fuel as [|fuel IH];
    intros st (Hsub & Hlen & Hpicked & Hrounds);
    rewrite backward_while_unfold; case_decide as Hguard; try done;
    try (intros [= <-]; split_and!; auto).
  cbv zeta.
  destruct (backward_round score (current_features st) (best st))
    as [b' [f|]] eqn:E; simpl; [|intros [= <-]; simpl; split_and!; auto].
  apply backward_round_selected in E as (Hf & -> & _).
  destruct (truthy_str f) eqn:Hf_truthy;
    [|intros [= <-]; simpl; split_and!; auto].
  apply IH. unfold backward_inv. simpl. split_and!.
  - etrans; [apply list_remove_first_sublist | done].
  - apply length_list_remove_first in Hf. rewrite length_app. simpl. lia.
  - intros g [Hg | ->%list_elem_of_singleton]%elem_of_app; [auto|]. split.
    + eapply elem_of_sublist; [exact Hf | exact Hsub].
    + intros ->. by rewrite (proj2 (truthy_str_false "") eq_refl) in Hf_truthy.
  - rewrite length_app. simpl. lia.
Qed.

Lemma backward_while_tracker start fuel st st' :
  NoDup (current_features st) →
  backward_tracker_inv score start all_features st →
  backward_while score fuel st = Some st' →
  backward_tracker_inv score start all_features st' ∨
  ("" ∈ current_features st' ∧
   best st' = mkSolution (filter (λ g, g ≠ "") (current_features st'))
                (score (filter (λ g, g ≠ "") (current_features st')))).
Proof.
  revert st. induction fuel as [|fuel IH]; intros st Hnd Htracker;
    rewrite backward_while_unfold; case_decide as Hguard; try done;
    try (intros [= <-]; by left).
  cbv zeta.
  destruct (backward_round score (current_features st) (best st))
    as [b' [f|]] eqn:E; simpl.
  - apply backward_round_selected in E as (Hf & -> & _).
    destruct (truthy_str f) eqn:Hf_truthy.
    + apply IH; simpl.
      * eapply sublist_NoDup; [done | apply list_remove_first_sublist].
      * right. simpl. by rewrite list_remove_first_filter.
    + apply truthy_str_false in Hf_truthy as ->.
      intros [= <-]. simpl. by right.
  - rewrite backward_round_shape in E. apply round_for_none in E as [-> _].
    intros [= <-]. by left.
Qed.

Lemma backward_while_chain fuel st st' :
  backward_while score fuel st = Some st' →
  best st' = best st ∨ SFltb (mse (best st')) (mse (best st)) = true.
Proof.
  revert st. induction fuel as [|fuel IH]; intros st;
    rewrite backward_while_unfold; case_decide as Hguard; try done;
    try (intros [= <-]; by left).
  cbv zeta.
  assert ((backward_round score (current_features st) (best st)).1 = best st ∨
          SFltb (mse (backward_round score (current_features st) (best st)).1)
                (mse (best st)) = true) as Hround.
  { rewrite backward_round_shape, round_for_best. apply updates_mse_chain. }
  destruct (backward_round score (current_features st) (best st))
    as [b' [f|]]; simpl in *;
    [destruct (truthy_str f)|]; try (by intros [= <-]).
  intros [E|Hlt]%IH; simpl in *.
  - by rewrite E.
  - right. destruct Hround as [<-|Hround]; [done|].
    exact (SFltb_trans _ _ _ Hlt Hround).
Qed.

Lemma backward_while_more_fuel fuel fuel' st st' :
  backward_while score fuel st = Some st' →
  fuel ≤ fuel' →
  backward_while score fuel' st = Some st'.
Proof.
  revert st fuel'. induction fuel as [|fuel IH]; intros st fuel';
    rewrite !backward_while_unfold; case_decide; try done.
  intros Hrun Hle. destruct fuel' as [|fuel']; [lia|]. cbv zeta in *.
  destruct (backward_round score (current_features st) (best st))
    as [b' [f|]]; simpl in *; [|done].
  destruct (truthy_str f); [|done]. apply IH; [done | lia].
Qed.
End BackwardResult.

(** X10.  The backward search always stops, whatever the oracle: [p] loop
    bodies are enough ([p] the length of the feature list), the result runs
    at most [p] rounds, and giving the loop any other amount of fuel either
    runs out or gives the same result. *)
Theorem backward_stops (score : list Feature → Score)
    (all_features : list Feature) (baseline : Score) :
  ∃ st,
    backward score (length all_features) all_features baseline = Some st ∧
    rounds st ≤ length all_features ∧
    ∀ fuel st', backward score fuel all_features baseline = Some st' →
                st' = st.
Proof.
  destruct (backward_terminates score all_features baseline)
    as (st & Hst & Hrounds).
  exists st. split_and!; [done | done |]. intros fuel st' Hst'.
  unfold backward in *.
  pose proof (backward_while_more_fuel _ _
                (fuel `max` length all_features) _ _ Hst' ltac:(lia)) as E1.
  pose proof (backward_while_more_fuel _ _
                (fuel `max` length all_features) _ _ Hst ltac:(lia)) as E2.
  congruence.
Qed.

Lemma backward_while_complement all_features score fuel st st' :
  NoDup all_features →
  current_features st = filter (λ g, g ∉ picked st) all_features →
  backward_while score fuel st = Some st' →
  current_features st' = filter (λ g, g ∉ picked st') all_features.
Proof.
  intros Hall. revert st. induction fuel as [|fuel IH]; intros st Hcur;
    rewrite backward_while_unfold; case_decide as Hguard; try done;
    try (by intros [= <-]).
  cbv zeta.
  destruct (backward_round score (current_features st) (best st))
    as [b' [f|]] eqn:E; simpl; [|by intros [= <-]].
  destruct (truthy_str f); [|by intros [= <-]].
  apply IH. simpl.
  rewrite list_remove_first_filter
    by (rewrite Hcur; by apply NoDup_filter).
  rewrite Hcur, list_filter_filter. apply list_filter_iff. intros g.
  rewrite elem_of_app, list_elem_of_singleton. tauto.
Qed.

(** X11.  What the backward search keeps as its current subset: what is
    left of the universe, in universe order; together with the features it
    removed it accounts for the whole feature list; the removed features
    belong to the universe and none has an empty name; and each round but
    possibly the last removed one feature.  On a universe without repeated
    names the current subset is exactly the universe without the removed
    features. *)
Theorem backward_subset_shrinks (score : list Feature → Score)
    (all_features : list Feature) (baseline : Score)
    (fuel : nat) (st : Search) :
  backward score fuel all_features baseline = Some st →
  current_features st `sublist_of` all_features ∧
  length (current_features st) + length (picked st) = length all_features ∧
  (∀ f, f ∈ picked st → f ∈ all_features ∧ f ≠ "") ∧
  (rounds st = length (picked st) ∨ rounds st = S (length (picked st))) ∧
  (NoDup all_features →
   current_features st = filter (λ g, g ∉ picked st) all_features).
Proof.
  intros Hrun.
  destruct (backward_start_inv score all_features baseline) as [Hinv _].
  destruct (backward_while_inv score all_features _ _ _ Hinv Hrun)
    as (Hsub & Hlen & Hpicked & Hrounds).
  split_and!; try done. intros Hnd.
  apply (backward_while_complement all_features score fuel
           (backward_start score all_features baseline)); [done | | done].
  simpl. clear. induction all_features as [|x l IH]; [done|].
  rewrite filter_cons_True by (by intros ?%elem_of_nil). by rewrite <-IH.
Qed.

Lemma backward_subset_shrinks_witness :
  backward unnamed_best_score 2 ["x"; "y"] (score_of_Z 10)
    = Some (mkSearch ["x"] (mkSolution ["x"] (score_of_Z 2)) 2 ["y"]) ∧
  ["x"] `sublist_of` ["x"; "y"] ∧
  ["x"] = filter (λ g, g ∉ ["y"]) ["x"; "y"].
Proof.
  assert (backward unnamed_best_score 2 ["x"; "y"] (score_of_Z 10)
    = Some (mkSearch ["x"] (mkSolution ["x"] (score_of_Z 2)) 2 ["y"])) as E
    by (vm_compute; reflexivity).
  split; [exact E|].
  destruct (backward_subset_shrinks unnamed_best_score ["x"; "y"]
              (score_of_Z 10) 2 _ E) as (Hsub & _ & _ & _ & Hcomp).
  split; [exact Hsub|]. apply Hcomp.
  apply (bool_decide_unpack _). vm_compute. exact I.
Defined.

(** X12.  What the backward search reports, on a universe without repeated
    names.  The tracker is the one the search started with, nothing having
    been removed; or it holds exactly the current subset with the score the
    oracle gives it; or, third case, the last round was won by removing the
    column with the empty name, which the current subset still has, and
    the tracker holds the current subset without it.  In every case the
    tracker is the starting one or scores strictly below it. *)
Theorem backward_reports_current (score : list Feature → Score)
    (all_features : list Feature) (baseline : Score)
    (fuel : nat) (st : Search) :
  NoDup all_features →
  backward score fuel all_features baseline = Some st →
  ((best st = best (backward_start score all_features baseline) ∧
    current_features st = all_features) ∨
   best st = mkSolution (current_features st) (score (current_features st)) ∨
   ("" ∈ current_features st ∧
    best st = mkSolution (filter (λ g, g ≠ "") (current_features st))
                (score (filter (λ g, g ≠ "") (current_features st))))) ∧
  (best st = best (backward_start score all_features baseline) ∨
   SFltb (mse (best st))
         (mse (best (backward_start score all_features baseline))) = true).
Proof.
  intros Hnd Hrun. split.
  - destruct (backward_start_inv score all_features baseline) as [_ Htr].
    destruct (backward_while_tracker score all_features _ fuel
                (backward_start score all_features baseline) st Hnd Htr Hrun)
      as [[?|?]|?]; auto.
  - apply (backward_while_chain _ _ _ _ Hrun).
Qed.

Lemma backward_reports_current_witness :
  backward unnamed_worst_score 2 ["x"; ""] (score_of_Z 10)
    = Some (mkSearch ["x"; ""] (mkSolution ["x"] (score_of_Z 2)) 1 []) ∧
  SFltb (score_of_Z 2)
        (mse (best (backward_start unnamed_worst_score ["x"; ""]
                      (score_of_Z 10)))) = true.
Proof.
  assert (backward unnamed_worst_score 2 ["x"; ""] (score_of_Z 10)
    = Some (mkSearch ["x"; ""] (mkSolution ["x"] (score_of_Z 2)) 1 [])) as E
    by (vm_compute; reflexivity).
  split; [exact E|].
  destruct (backward_reports_current unnamed_worst_score ["x"; ""]
              (score_of_Z 10) 2 _
              ltac:(apply (bool_decide_unpack _); vm_compute; exact I) E)
    as [_ [Hsame|Hlt]]; [discriminate Hsame | exact Hlt].
Defined.

(** ** The stepwise searches against the complete enumeration *)

Lemma exhaustive_not_above score (all_features : list Feature) baseline s :
  s ≠ [] → s `sublist_of` all_features →
  SFltb (score s) (mse (e_best (exhaustive score all_features baseline)))
    = false.
Proof.
  intros Hne Hs. rewrite exhaustive_spec. simpl.
  apply updates_mse_lower. right.
  apply scored_subsets_seen. by apply elem_of_subsets_by_size.
Qed.

Lemma exhaustive_not_above_baseline score (all_features : list Feature)
    baseline :
  SFltb baseline (mse (e_best (exhaustive score all_features baseline)))
    = false.
Proof. rewrite exhaustive_spec. simpl. apply updates_mse_lower. left. Qed.

Lemma remove_dups_sublist (l : list Feature) : remove_dups l `sublist_of` l.
Proof.
  induction l as [|x l IH]; simpl; [done|].
  case_decide; [by apply sublist_cons | by apply sublist_skip].
Qed.

(** A duplicate-free list of names of the universe is a rearrangement of a
    non-empty subsequence of the universe. *)
Lemma subset_in_universe_order (all_features l : list Feature) :
  l ≠ [] → NoDup l → (∀ f, f ∈ l → f ∈ all_features) →
  ∃ s, s ≠ [] ∧ s `sublist_of` all_features ∧ s ≡ₚ l.
Proof.
  intros Hne Hnd Hsub.
  exists (filter (λ f, f ∈ l) (remove_dups all_features)).
  assert (filter (λ f, f ∈ l) (remove_dups all_features) ≡ₚ l) as Hperm.
  { apply NoDup_Permutation; [|done|].
    - apply NoDup_filter, NoDup_remove_dups.
    - intros f. rewrite list_elem_of_filter, elem_of_remove_dups.
      split; [tauto | auto]. }
  split_and!; [|etrans; [apply sublist_filter | apply remove_dups_sublist]|done].
  intros E. rewrite E in Hperm. apply Permutation_nil_l in Hperm. done.
Qed.

(** X13.  With the same oracle and baseline, neither stepwise search
    reports a score strictly below the one the complete enumeration
    reports.  For the forward search this needs an oracle that depends on
    the subset as a set only (it scores subsets in commit order, the
    enumeration in universe order); for the backward search it is said of
    a universe without repeated names and of a non-empty reported subset
    (the backward search also scores the empty subset, which the
    enumeration never does). *)
Theorem stepwise_not_below_exhaustive (score : list Feature → Score)
    (order : list Feature → list Feature) (all_features : list Feature)
    (baseline : Score) :
  (∀ l, order l ≡ₚ l) →
  (∀ fuel st,
     (∀ s s', s ≡ₚ s' → score s = score s') →
     forward score order all_features fuel baseline = Some st →
     SFltb (mse (best st))
           (mse (e_best (exhaustive score all_features baseline))) = false) ∧
  (∀ fuel st,
     NoDup all_features →
     backward score fuel all_features baseline = Some st →
     features (best st) ≠ [] →
     SFltb (mse (best st))
           (mse (e_best (exhaustive score all_features baseline))) = false).
Proof.
  intros Hperm. split.
  - intros fuel st Hset Hrun.
    destruct (forward_start_inv score all_features baseline) as [Hinv Htr].
    destruct (forward_while_inv score order all_features baseline Hperm
                _ _ _ Hinv Htr Hrun) as (Hnd & Hsub & Hne & _ & _ & Hbest).
    destruct Hbest as [[[-> _] | [Hcur ->]] | [Hall ->]]; simpl.
    + apply exhaustive_not_above_baseline.
    + destruct (subset_in_universe_order all_features (current_features st))
        as (s & Hs & Hsl & Hsp); [done..|].
      rewrite <-(Hset _ _ Hsp). by apply exhaustive_not_above.
    + destruct (subset_in_universe_order all_features
                  (current_features st ++ [""])) as (s & Hs & Hsl & Hsp).
      * by destruct (current_features st).
      * apply NoDup_app. split_and!; [done | | apply NoDup_singleton].
        by intros g Hg ->%list_elem_of_singleton.
      * intros g [Hg | ->%list_elem_of_singleton]%elem_of_app; auto.
      * rewrite <-(Hset _ _ Hsp). by apply exhaustive_not_above.
  - intros fuel st Hnd Hrun Hfeatures.
    destruct (backward_start_inv score all_features baseline) as [Hinv Htr].
    destruct (backward_while_inv score all_features _ _ _ Hinv Hrun)
      as (Hsub & _).
    destruct (backward_while_tracker score all_features _ fuel
                (backward_start score all_features baseline) st Hnd Htr Hrun)
      as [[[E _] | E] | [_ E]]; rewrite E in Hfeatures |- *;
      simpl in Hfeatures |- *.
    + unfold Solution_init_backward in *.
      destruct (truthy_list all_features && truthy_float (score all_features));
        simpl in *; [by apply exhaustive_not_above | done].
    + by apply exhaustive_not_above.
    + apply exhaustive_not_above; [done|].
      etrans; [apply sublist_filter | done].
Qed.

Lemma set_score_Permutation (s s' : list Feature) :
  s ≡ₚ s' → set_score s = set_score s'.
Proof.
  intros Hs. unfold set_score.
  repeat case_decide; try reflexivity; exfalso;
    repeat match goal with
    | H : _ ∈ s |- _ => rewrite Hs in H
    | H : _ ∉ s |- _ => rewrite Hs in H
    end; done.
Qed.

Lemma stepwise_not_below_exhaustive_witness :
  SFltb (score_of_Z 2)
        (mse (e_best (exhaustive set_score ["A"; "B"; "C"] (score_of_Z 10))))
    = false ∧
  SFltb (score_of_Z 2)
        (mse (e_best (exhaustive unnamed_best_score ["x"; "y"] (score_of_Z 10))))
    = false.
Proof.
  destruct (stepwise_not_below_exhaustive set_score id ["A"; "B"; "C"]
              (score_of_Z 10) (λ l, reflexivity l)) as [Hfwd _].
  destruct (stepwise_not_below_exhaustive unnamed_best_score id ["x"; "y"]
              (score_of_Z 10) (λ l, reflexivity l)) as [_ Hbwd].
  split.
  - apply (Hfwd 4 (mkSearch ["B"; "A"] (mkSolution ["B"; "A"] (score_of_Z 2))
                     3 ["B"; "A"])); [|vm_compute; reflexivity].
    apply set_score_Permutation.
  - apply (Hbwd 2 (mkSearch ["x"] (mkSolution ["x"] (score_of_Z 2)) 2 ["y"]));
      [|vm_compute; reflexivity | discriminate].
    apply (bool_decide_unpack _). vm_compute. exact I.
Defined.

(** ** The empty universe *)

(** X14.  On a data frame without feature columns none of the three
    searches runs a round: each returns the baseline tracker with the empty
    subset.  The enumeration makes no oracle call, the forward loop is not
    entered whatever the fuel, and the backward search, whose constructor
    is handed an empty (falsy) feature list, discards the score the oracle
    gave to the empty subset, falls back to the baseline and does not enter
    its loop either. *)
Theorem empty_universe (score : list Feature → Score)
    (order : list Feature → list Feature) (baseline : Score) (fuel : nat) :
  exhaustive score [] baseline = mkEnumeration (mkSolution [] baseline) [] ∧
  forward score order [] fuel baseline
    = Some (mkSearch [] (mkSolution [] baseline) 0 []) ∧
  backward score fuel [] baseline
    = Some (mkSearch [] (mkSolution [] baseline) 0 []).
Proof.
  split_and!; [done | |].
  - unfold forward. by rewrite forward_while_unfold.
  - unfold backward. by rewrite backward_while_unfold.
Qed.
